(** * Console driver of marmbrus/circuits: a shallow embedding

    The embedded code is [SerialConnection] of [air/src/test/serial_connection.py]
    (buffer store, reader loop, command channel, wait/match engine, reset
    sequencer) and [pick_port] of [air/src/test/serial_connection.py];
    [send_line_and_capture], [_sanitize_terminal_output], [pick_port] and the
    configuration commands ([_escape_str_value], [_infer_type_and_value],
    [build_commands_from_dict], [_merge_configs]) of [air/src/program.py]; and
    [_clean_ansi] and [SerialConsole] (reader loop, marks, waits, [dump_recent])
    of [roomsensor_util/serial_console.py].

    Conventions of the model:
    - [bytes] are [list Byte.byte]; a Python [str] is a list of code points ([Z]);
    - Python ints (offsets, limits) are [Z], list lengths are converted with [Z.of_nat];
    - readings of [time.time()] are supplied by the environment, as integers
      in milliseconds; [time.sleep] is an event of the transport log;
    - the reader thread runs between two polls of a caller: a poll observes a
      buffer state that the reader loop produced from the previous one. *)

From Stdlib Require Import List ZArith Bool Lia Strings.Byte.
From Stdlib Require Strings.String Strings.Ascii.
Import (notations) Strings.String.
Import ListNotations.
Open Scope Z_scope.

Definition bytes := list Byte.byte.
Definition text := list Z.

(** ** Generic sequence helpers (Python [in], [bytes.replace]) *)

Fixpoint is_prefix {A} (eqb : A -> A -> bool) (p l : list A) : bool :=
  match p, l with
  | [], _ => true
  | x :: p', y :: l' => eqb x y && is_prefix eqb p' l'
  | _ :: _, [] => false
  end.

(** Python's [needle in hay] on [bytes] and [str]. *)
Fixpoint contains {A} (eqb : A -> A -> bool) (needle hay : list A) : bool :=
  is_prefix eqb needle hay ||
  match hay with
  | [] => false
  | _ :: hay' => contains eqb needle hay'
  end.

Definition is_empty {A} (l : list A) : bool :=
  match l with [] => true | _ => false end.

(** ** Terminal query emulation (both reader loops) *)

(** [b"\x1b[6n"] and [b"\x1b[1;1R"]. *)
Definition cpr_query : bytes := [x1b; x5b; x36; x6e].
Definition cpr_reply : bytes := [x1b; x5b; x31; x3b; x31; x52].

(** [data.replace(query, empty)] for the query above: occurrences removed left to right,
    without overlap. *)
Fixpoint strip_cpr (l : bytes) : bytes :=
  match l with
  | x1b :: x5b :: x36 :: x6e :: rest => strip_cpr rest
  | c :: rest => c :: strip_cpr rest
  | [] => []
  end.

(** [sep.join(parts)]. *)
Fixpoint join_bytes (sep : bytes) (parts : list bytes) : bytes :=
  match parts with
  | [] => []
  | [p] => p
  | p :: parts' => p ++ sep ++ join_bytes sep parts'
  end.

(** Lines 113-119 of [_read_loop] (lines 99-106 of [send_line_and_capture]):
    the replies written to the transport, and the chunk to buffer. *)
Definition answer_cpr (data : bytes) : list bytes * bytes :=
  if contains Byte.eqb cpr_query data
  then ([cpr_reply], strip_cpr data)
  else ([], data).

(** ** Buffer store of [SerialConnection] *)

Record conn := Conn {
  buf : bytes;              (* self._buf *)
  buf_base_index : Z        (* self._buf_base_index *)
}.

Definition conn_init : conn := Conn [] 0.

(** Lines 120-126: extend, then drop the oldest bytes over the limit
    ([del self._buf[:drop]] with [drop > 0]). *)
Definition append_data (limit : Z) (data : bytes) (s : conn) : conn :=
  let b := buf s ++ data in
  if limit <? Z.of_nat (length b) then
    let drop := Z.of_nat (length b) - limit in
    Conn (skipn (Z.to_nat drop) b) (buf_base_index s + drop)
  else Conn b (buf_base_index s).

(** One iteration of [_read_loop] that read [data]: the CPR replies written
    and the new buffer state. An empty read is skipped ([continue]). *)
Definition read_loop_step (limit : Z) (data : bytes) (s : conn) : list bytes * conn :=
  if is_empty data then ([], s)
  else let '(w, d) := answer_cpr data in (w, append_data limit d s).

Fixpoint read_loop (limit : Z) (reads : list bytes) (s : conn) : list bytes * conn :=
  match reads with
  | [] => ([], s)
  | d :: reads' =>
      let '(w1, s1) := read_loop_step limit d s in
      let '(w2, s2) := read_loop limit reads' s1 in
      (w1 ++ w2, s2)
  end.

(** The bytes a read contributes to the buffer. *)
Definition buffered_of (data : bytes) : bytes :=
  if is_empty data then [] else snd (answer_cpr data).

(** The mark of [reset_run] and [send_command]: [self._buf_base_index + len(self._buf)]. *)
Definition mark (s : conn) : Z := buf_base_index s + Z.of_nat (length (buf s)).

(** The raw part of [_snapshot_from]: [self._buf[rel:]]. *)
Definition snapshot_bytes (s : conn) (start_pos : option Z) : bytes :=
  let rel := match start_pos with
             | None => 0
             | Some p => Z.max 0 (p - buf_base_index s)
             end in
  skipn (Z.to_nat rel) (buf s).

(** ** Text: UTF-8 decoding with [errors="replace"], encoding, ANSI stripping *)

Definition FFFD : Z := 65533.

Definition in_range (lo hi b : Z) : bool := (lo <=? b) && (b <=? hi).

(** [bytes.decode("utf-8", errors="replace")] on byte values: each maximal
    ill-formed subpart becomes one U+FFFD, and decoding resumes at the first
    byte that did not fit. *)
Fixpoint decode_z (l : list Z) : text :=
  match l with
  | [] => []
  | b :: rest =>
    if b <? 128 then b :: decode_z rest
    else if in_range 194 223 b then
      match rest with
      | c :: rest1 =>
          if in_range 128 191 c then ((b - 192) * 64 + (c - 128)) :: decode_z rest1
          else FFFD :: decode_z rest
      | [] => [FFFD]
      end
    else if in_range 224 239 b then
      let lo := if b =? 224 then 160 else 128 in
      let hi := if b =? 237 then 159 else 191 in
      match rest with
      | c :: rest1 =>
          if in_range lo hi c then
            match rest1 with
            | d :: rest2 =>
                if in_range 128 191 d
                then ((b - 224) * 4096 + (c - 128) * 64 + (d - 128)) :: decode_z rest2
                else FFFD :: decode_z rest1
            | [] => [FFFD]
            end
          else FFFD :: decode_z rest
      | [] => [FFFD]
      end
    else if in_range 240 244 b then
      let lo := if b =? 240 then 144 else 128 in
      let hi := if b =? 244 then 143 else 191 in
      match rest with
      | c :: rest1 =>
          if in_range lo hi c then
            match rest1 with
            | d :: rest2 =>
                if in_range 128 191 d then
                  match rest2 with
                  | e :: rest3 =>
                      if in_range 128 191 e
                      then ((b - 240) * 262144 + (c - 128) * 4096 + (d - 128) * 64
                            + (e - 128)) :: decode_z rest3
                      else FFFD :: decode_z rest2
                  | [] => [FFFD]
                  end
                else FFFD :: decode_z rest1
            | [] => [FFFD]
            end
          else FFFD :: decode_z rest
      | [] => [FFFD]
      end
    else FFFD :: decode_z rest
  end.

Definition byte_val (b : Byte.byte) : Z := Z.of_N (Byte.to_N b).

Definition decode (l : bytes) : text := decode_z (map byte_val l).

Definition byte_of (z : Z) : Byte.byte :=
  match Byte.of_N (Z.to_N z) with Some b => b | None => x00 end.

(** [str.encode("utf-8")]: [None] where Python raises (a lone surrogate). *)
Definition encode_char (c : Z) : option bytes :=
  if c <? 128 then Some [byte_of c]
  else if c <? 2048 then
    Some [byte_of (192 + c / 64); byte_of (128 + c mod 64)]
  else if c <? 65536 then
    if in_range 55296 57343 c then None
    else Some [byte_of (224 + c / 4096); byte_of (128 + (c / 64) mod 64);
               byte_of (128 + c mod 64)]
  else
    Some [byte_of (240 + c / 262144); byte_of (128 + (c / 4096) mod 64);
          byte_of (128 + (c / 64) mod 64); byte_of (128 + c mod 64)].

Fixpoint encode (t : text) : option bytes :=
  match t with
  | [] => Some []
  | c :: t' =>
      match encode_char c, encode t' with
      | Some b, Some r => Some (b ++ r)
      | _, _ => None
      end
  end.

(** *** The two regular expressions of [_sanitize]

    A matcher receives the text from the current search position and returns
    what follows the match, or [None] when the pattern does not match there. *)

(** [ANSI_OSC_RE = r"\x1B\].*?(?:\x07|\x1B\\)"] after its [ESC ]]: the lazy
    [.*?] (any character but a newline) stops at the first BEL or ESC-backslash. *)
Fixpoint osc_body (l : text) : option text :=
  match l with
  | [] => None
  | c :: rest =>
      if c =? 7 then Some rest
      else if c =? 10 then None
      else if c =? 27 then
        match rest with
        | d :: rest' => if d =? 92 then Some rest' else osc_body rest
        | [] => None
        end
      else osc_body rest
  end.

Definition match_osc (l : text) : option text :=
  match l with
  | c1 :: c2 :: rest => if (c1 =? 27) && (c2 =? 93) then osc_body rest else None
  | _ => None
  end.

Fixpoint skip_while (p : Z -> bool) (l : text) : text :=
  match l with
  | c :: rest => if p c then skip_while p rest else l
  | [] => []
  end.

(** [ANSI_CSI_RE = r"\x1B\[[0-?]*[ -/]*[@-~]"]. The three classes are
    disjoint, so backtracking into the two greedy stars never helps: the
    pattern matches iff the character after both maximal runs is a final byte. *)
Definition match_csi (l : text) : option text :=
  match l with
  | c1 :: c2 :: rest =>
      if (c1 =? 27) && (c2 =? 91) then
        match skip_while (in_range 32 47) (skip_while (in_range 48 63) rest) with
        | f :: rest' => if in_range 64 126 f then Some rest' else None
        | [] => None
        end
      else None
  | _ => None
  end.

(** [pattern.sub(repl, s)] with an empty [repl]: scan left to right, delete each match and resume
    after it. Both patterns consume at least two characters, so
    [length s] steps suffice. *)
Fixpoint sub_fuel (m : text -> option text) (fuel : nat) (s : text) : text :=
  match fuel with
  | O => s
  | S fuel' =>
      match s with
      | [] => []
      | c :: rest =>
          match m s with
          | Some after => sub_fuel m fuel' after
          | None => c :: sub_fuel m fuel' rest
          end
      end
  end.

Definition py_sub (m : text -> option text) (s : text) : text :=
  sub_fuel m (length s) s.

(** [_sanitize] (serial_connection.py) and the tail of
    [_sanitize_terminal_output] (program.py). *)
Definition sanitize (s : text) : text := py_sub match_csi (py_sub match_osc s).

(** [_clean_ansi] (serial_console.py): the CSI pattern only. *)
Definition clean_ansi (s : text) : text := py_sub match_csi s.

(** [_snapshot_from] and [_snapshot_text]. *)
Definition snapshot_from (s : conn) (start_pos : option Z) : text :=
  sanitize (decode (snapshot_bytes s start_pos)).

Definition snapshot_text (s : conn) : text := sanitize (decode (buf s)).

(** ** Transport events and control lines *)

Inductive ctrl_line := DTR | RTS.

Inductive event :=
| TWrite (b : bytes)                 (* self._ser.write(b) *)
| TFlush                             (* self._ser.flush() *)
| TSet (l : ctrl_line) (v : bool)    (* a setDTR / setRTS call that returned *)
| TSleep (ms : Z).                   (* time.sleep *)

(** ** Reset sequencer: [reset_run] (lines 161-175)

    The statements of its [try] block; [ok] lists, in order, whether each
    control-line call returns (a missing entry means it does). A call that
    raises ends the block: the exception is swallowed by [except Exception: pass]. *)

Inductive stmt := SSet (l : ctrl_line) (v : bool) | SSleep (ms : Z).

Fixpoint run_try (ok : list bool) (body : list stmt) : list event :=
  match body with
  | [] => []
  | SSleep ms :: body' => TSleep ms :: run_try ok body'
  | SSet l v :: body' =>
      match ok with
      | false :: _ => []
      | true :: ok' => TSet l v :: run_try ok' body'
      | [] => TSet l v :: run_try [] body'
      end
  end.

(** DTR false (boot mode normal), sleep 0.02, RTS true, sleep 0.1, RTS false. *)
Definition reset_run_body : list stmt :=
  [SSet DTR false; SSleep 20; SSet RTS true; SSleep 100; SSet RTS false].

(** [reset_run(wait_after_s=...)]: the returned mark and the events emitted. *)
Definition reset_run (ok : list bool) (wait_after_ms : Z) (s : conn) : Z * list event :=
  let start_pos := mark s in
  (start_pos, run_try ok reset_run_body ++ [TSleep wait_after_ms]).

(** ** Command channel: [_wait_echo] and [send_command] (lines 137-144, 177-190)

    An observation of a polling loop: the clock reading of the [while] test
    and the buffer state the poll then reads. *)

Record poll_obs := PollObs { p_now : Z; p_state : conn }.

Definition LF : Z := 10.

(** The loop of [_wait_echo]: [Some b] is the returned value, [None] means the
    environment ran out of observations while the loop was still running. *)
Fixpoint wait_echo_loop (needle : text) (deadline : Z) (obs : list poll_obs)
  : list event * option bool :=
  match obs with
  | [] => ([], None)
  | o :: obs' =>
      if p_now o <? deadline then
        if contains Z.eqb needle (snapshot_text (p_state o)) then ([], Some true)
        else let '(ev, r) := wait_echo_loop needle deadline obs' in (TSleep 50 :: ev, r)
      else ([], Some false)
  end.

Definition wait_echo (line : text) (timeout_ms t0 : Z) (obs : list poll_obs)
  : list event * option bool :=
  wait_echo_loop (line ++ [LF]) (t0 + timeout_ms) obs.

(** The [try] block of [send_command]:
    [self._ser.write((line + "\r\n").encode("utf-8")); self._ser.flush()].
    [payload] is the result of the encoding ([None]: [encode] raised);
    [ok] lists, in order, whether [write] and [flush] return (a missing entry
    means it does). An exception ends the block and is swallowed by
    [except Exception: pass]: a [write] that raises is followed by no
    [flush]. *)
Definition write_flush (ok : list bool) (payload : option bytes) : list event :=
  match payload with
  | None => []
  | Some b =>
      match ok with
      | false :: _ => []
      | _ => TWrite b :: match tl ok with
                         | false :: _ => []
                         | _ => [TFlush]
                         end
      end
  end.

(** [send_command(line)] from buffer state [s]: the returned mark, the events,
    and the (discarded) result of [_wait_echo] with its default 2 s timeout. *)
Definition send_command (ok : list bool) (line : text) (s : conn) (t0 : Z)
    (obs : list poll_obs) : Z * list event * option bool :=
  let start_pos := mark s in
  let io := write_flush ok (encode (line ++ [13; 10])) in
  let '(ev, echoed) := wait_echo line 2000 t0 obs in
  (start_pos, io ++ ev, echoed).

(** ** Wait / match engine: [assert_contains] (lines 199-214) *)

Section AssertContains.

(** The first line of the failure message,
    [f"Did not find substring after {timeout_s}s: {needle!r}"]. Its formatting
    (float and [repr]) is left abstract: nothing below depends on it. *)
Variable fail_header : text -> Z -> text.

Definition str_lines (ls : list text) : text :=
  match ls with
  | [] => []
  | l :: ls' => l ++ concat (map (fun x => LF :: x) ls')
  end.

(** ["--- captured output (full) ---"] and ["--- end captured output ---"]. *)
Definition captured_open : text :=
  [45;45;45;32;99;97;112;116;117;114;101;100;32;111;117;116;112;117;116;32;
   40;102;117;108;108;41;32;45;45;45].
Definition captured_close : text :=
  [45;45;45;32;101;110;100;32;99;97;112;116;117;114;101;100;32;111;117;116;
   112;117;116;32;45;45;45].

Definition assert_message (needle : text) (timeout_ms : Z) (hay : text) : text :=
  str_lines [fail_header needle timeout_ms; captured_open; hay; captured_close].

Inductive assert_result :=
| AssertOk
| AssertRaised (msg : text)      (* AssertionError(msg) *)
| AssertPending.                 (* observations exhausted *)

(** [while True]: snapshot, test, check the deadline, sleep [poll_s]. Here an
    observation is the buffer state of the snapshot and the clock reading
    of the deadline test. *)
Fixpoint assert_loop (needle : text) (start_pos : option Z) (timeout_ms deadline poll_ms : Z)
    (obs : list poll_obs) : list event * assert_result :=
  match obs with
  | [] => ([], AssertPending)
  | o :: obs' =>
      let hay := snapshot_from (p_state o) start_pos in
      if contains Z.eqb needle hay then ([], AssertOk)
      else if deadline <=? p_now o then ([], AssertRaised (assert_message needle timeout_ms hay))
      else let '(ev, r) := assert_loop needle start_pos timeout_ms deadline poll_ms obs' in
           (TSleep poll_ms :: ev, r)
  end.

(** [assert_contains(needle, start_pos=..., timeout_s=..., poll_s=...)] with
    [deadline = time.time() + timeout_s] read at [t0]. *)
Definition assert_contains (needle : text) (start_pos : option Z) (timeout_ms poll_ms t0 : Z)
    (obs : list poll_obs) : list event * assert_result :=
  assert_loop needle start_pos timeout_ms (t0 + timeout_ms) poll_ms obs.

End AssertContains.

(** ** [wait_for_idle] (lines 149-159) *)

(** One iteration: the clock reading of the [while] test, the reads the reader
    thread processes during [time.sleep(0.1)], and the clock readings of
    line 156 and line 157. *)
Record idle_obs := IdleObs {
  i_loop : Z; i_reads : list bytes; i_grow : Z; i_check : Z
}.

Inductive idle_result := IdleReturned | IdleRaised | IdlePending.

Fixpoint idle_loop (limit silence_ms deadline last_data : Z) (s : conn) (obs : list idle_obs)
  : list event * idle_result :=
  match obs with
  | [] => ([], IdlePending)
  | o :: obs' =>
      if i_loop o <? deadline then
        let current_len := length (buf s) in
        let s' := snd (read_loop limit (i_reads o) s) in
        let last' := if (current_len <? length (buf s'))%nat then i_grow o else last_data in
        if silence_ms <? i_check o - last' then ([TSleep 100], IdleReturned)
        else let '(ev, r) := idle_loop limit silence_ms deadline last' s' obs' in
             (TSleep 100 :: ev, r)
      else ([], IdleRaised)  (* raise RuntimeError("Console did not become idle") *)
  end.

(** [wait_for_idle(silence_s, timeout_s)] on a connection with buffer limit
    [limit], from state [s]; [t0] and [t1] are the readings of lines 150-151. *)
Definition wait_for_idle (limit silence_ms timeout_ms t0 t1 : Z) (s : conn)
    (obs : list idle_obs) : list event * idle_result :=
  idle_loop limit silence_ms (t0 + timeout_ms) t1 s obs.

(** ** [send_line_and_capture] (program.py, lines 80-115) *)

(** One iteration: what [ser.read(256)] returned and the reading of [now]. *)
Record read_obs := ReadObs { r_data : bytes; r_now : Z }.

Inductive capture_result :=
| Captured (t : text)        (* the returned transcript *)
| StillReading (acc : bytes). (* observations exhausted inside the loop *)

Definition idle_threshold_ms : Z := 400.
Definition max_wait_ms : Z := 6000.

Fixpoint capture_loop (start last_data : Z) (acc : bytes) (obs : list read_obs)
  : list event * capture_result :=
  match obs with
  | [] => ([], StillReading acc)
  | o :: obs' =>
      let now := r_now o in
      if negb (is_empty (r_data o)) then
        let '(w, d) := answer_cpr (r_data o) in
        let io := concat (map (fun r => [TWrite r; TFlush]) w) in
        let '(ev, res) := capture_loop start now (acc ++ d) obs' in
        (io ++ ev, res)
      else if idle_threshold_ms <=? now - last_data then
        ([], Captured (sanitize (decode acc)))
      else if max_wait_ms <=? now - start then
        ([], Captured (sanitize (decode acc)))
      else
        let '(ev, res) := capture_loop start last_data acc obs' in
        (TSleep 20 :: ev, res)
  end.

(** [send_line_and_capture(ser, line)]; [start] is the reading of line 90. *)
Definition send_line_and_capture (line : text) (start : Z) (obs : list read_obs)
  : list event * capture_result :=
  let io := match encode (line ++ [13; 10]) with
            | Some b => [TWrite b; TFlush]
            | None => []
            end in
  let '(ev, res) := capture_loop start start [] obs in
  (io ++ ev, res).

(** ** Console of the room sensor: [SerialConsole] (serial_console.py) *)

Record console := Console {
  c_buffer : bytes;           (* self._buffer *)
  c_clean_chunks : list text  (* self._clean_chunks *)
}.

Definition console_init : console := Console [] [].

(** One iteration of [_reader_loop] (lines 284-299) that read [data]: no
    limit, no query answered; the chunk is decoded and cleaned on its own, and
    kept when the result is not empty. An empty read only sleeps. *)
Definition rs_reader_step (data : bytes) (st : console) : console :=
  if is_empty data then st
  else
    let t := clean_ansi (decode data) in
    Console (c_buffer st ++ data)
            (if is_empty t then c_clean_chunks st else c_clean_chunks st ++ [t]).

Fixpoint rs_reader_loop (reads : list bytes) (st : console) : console :=
  match reads with
  | [] => st
  | d :: reads' => rs_reader_loop reads' (rs_reader_step d st)
  end.

(** [get_mark] (= [get_buffer_length]), [get_clean_text], [get_clean_mark]. *)
Definition get_mark (st : console) : Z := Z.of_nat (length (c_buffer st)).
Definition get_clean_text (st : console) : text := concat (c_clean_chunks st).
Definition get_clean_mark (st : console) : Z := Z.of_nat (length (get_clean_text st)).

(** The first index at which [sub] occurs in [l]. *)
Fixpoint find_index {A} (eqb : A -> A -> bool) (sub l : list A) : option nat :=
  if is_prefix eqb sub l then Some 0%nat
  else match l with
       | [] => None
       | _ :: l' => option_map S (find_index eqb sub l')
       end.

(** Python's [hay.find(sub, start)] (on [bytes] and [str]): a negative [start]
    counts from the end, a [start] past the end finds nothing. *)
Definition py_find {A} (eqb : A -> A -> bool) (hay sub : list A) (start : Z) : Z :=
  let n := Z.of_nat (length hay) in
  let st := if start <? 0 then Z.max 0 (start + n) else start in
  if n <? st then -1
  else match find_index eqb sub (skipn (Z.to_nat st) hay) with
       | Some i => st + Z.of_nat i
       | None => -1
       end.

(** An observation of a polling loop of [SerialConsole]: the clock reading of
    the [while] test and the console state the poll then reads. *)
Record rs_obs := RsObs { rs_now : Z; rs_state : console }.

Inductive rs_result :=
| RsReturned (b : bool)
| RsRaised                  (* text.encode raised *)
| RsPending.                (* observations exhausted *)

(** [while time.time() < deadline: ...; if found: return True; time.sleep(0.02)]
    then [return False]. *)
Fixpoint rs_wait_loop (found : console -> bool) (deadline : Z) (obs : list rs_obs)
  : list event * rs_result :=
  match obs with
  | [] => ([], RsPending)
  | o :: obs' =>
      if rs_now o <? deadline then
        if found (rs_state o) then ([], RsReturned true)
        else let '(ev, r) := rs_wait_loop found deadline obs' in (TSleep 20 :: ev, r)
      else ([], RsReturned false)
  end.

(** [wait_for] (lines 203-212); [t0] is the reading of line 205. *)
Definition wait_for (t : text) (timeout_ms t0 : Z) (obs : list rs_obs) : list event * rs_result :=
  match encode t with
  | Some target =>
      rs_wait_loop (fun st => contains Byte.eqb target (c_buffer st)) (t0 + timeout_ms) obs
  | None => ([], RsRaised)
  end.

(** [wait_for_after] (lines 214-223). *)
Definition wait_for_after (t : text) (start timeout_ms t0 : Z) (obs : list rs_obs)
  : list event * rs_result :=
  match encode t with
  | Some target =>
      rs_wait_loop (fun st => negb (py_find Byte.eqb (c_buffer st) target start =? -1))
                   (t0 + timeout_ms) obs
  | None => ([], RsRaised)
  end.

(** [wait_for_clean_after] (lines 243-250). *)
Definition wait_for_clean_after (t : text) (start timeout_ms t0 : Z) (obs : list rs_obs)
  : list event * rs_result :=
  rs_wait_loop (fun st => negb (py_find Z.eqb (get_clean_text st) t start =? -1))
               (t0 + timeout_ms) obs.

(** Python's [l[i:]]. *)
Definition py_slice_from {A} (i : Z) (l : list A) : list A :=
  let n := Z.of_nat (length l) in
  let i' := if i <? 0 then Z.max 0 (i + n) else i in
  skipn (Z.to_nat i') l.

(** [dump_recent(max_bytes)] (lines 225-233): [buf[-max_bytes:]], decoded. *)
Definition dump_recent (max_bytes : Z) (st : console) : text :=
  decode (py_slice_from (- max_bytes) (c_buffer st)).

(** ** Configuration commands of program.py (lines 118-160) *)

(** A string literal as code points. *)
Definition txt (s : String.string) : text :=
  map (fun a => Z.of_nat (Ascii.nat_of_ascii a)) (String.list_ascii_of_string s).

(** [s.replace(old, new)] for a one-character [old]. *)
Definition replace_char (old : Z) (new s : text) : text :=
  concat (map (fun c => if c =? old then new else [c]) s).

(** [_escape_str_value]: backslashes doubled first, then quotes escaped. *)
Definition escape_str_value (value : text) : text :=
  replace_char 34 [92; 34] (replace_char 92 [92; 92] value).

(** A JSON value inside a namespace. *)
Inductive jvalue :=
| JBool (b : bool)
| JInt (z : Z)
| JOther (str_v : text).   (* any other value, given by its [str(v)] *)

Fixpoint uint_text (u : Decimal.uint) : text :=
  match u with
  | Decimal.Nil => []
  | Decimal.D0 u' => 48 :: uint_text u'
  | Decimal.D1 u' => 49 :: uint_text u'
  | Decimal.D2 u' => 50 :: uint_text u'
  | Decimal.D3 u' => 51 :: uint_text u'
  | Decimal.D4 u' => 52 :: uint_text u'
  | Decimal.D5 u' => 53 :: uint_text u'
  | Decimal.D6 u' => 54 :: uint_text u'
  | Decimal.D7 u' => 55 :: uint_text u'
  | Decimal.D8 u' => 56 :: uint_text u'
  | Decimal.D9 u' => 57 :: uint_text u'
  end.

(** [str(v)] of an [int]. *)
Definition int_str (z : Z) : text :=
  match Z.to_int z with
  | Decimal.Pos u => uint_text u
  | Decimal.Neg u => 45 :: uint_text u
  end.

(** [_infer_type_and_value]: [bool] is tested before [int]. *)
Definition infer_type_and_value (v : jvalue) : text * text :=
  match v with
  | JBool b => (txt "u8", if b then txt "1" else txt "0")
  | JInt z => (txt "i32", int_str z)
  | JOther s => (txt "str", [34] ++ escape_str_value s ++ [34])
  end.

(** The value of a namespace: a JSON object or anything else. *)
Inductive nsvalue :=
| NsDict (kvs : list (text * jvalue))
| NsOther (v : jvalue).

(** A JSON object mapping namespaces to values, in insertion order. *)
Definition config := list (text * nsvalue).

Definition nvs_set_cmd (kv : text * jvalue) : text :=
  let '(t, v) := infer_type_and_value (snd kv) in
  txt "nvs_set " ++ fst kv ++ [32] ++ t ++ txt " -v " ++ v.

Definition namespace_cmds (e : text * nsvalue) : list text :=
  match snd e with
  | NsDict kvs => (txt "nvs_namespace " ++ fst e) :: map nvs_set_cmd kvs
  | NsOther _ => []          (* continue *)
  end.

(** [build_commands_from_dict] on an object (a non-object raises [SystemExit]). *)
Definition build_commands_from_dict (data : config) : list text :=
  [txt "log_level * none"] ++ concat (map namespace_cmds data) ++ [txt "restart"].

(** *** Python dicts as association lists

    A [dict] is the list of its items in insertion order (the order of
    [.items()]); the keys of a dict are pairwise distinct, and JSON object
    keys are [str], compared code point by code point. *)

Fixpoint text_eqb (a b : text) : bool :=
  match a, b with
  | [], [] => true
  | x :: a', y :: b' => (x =? y) && text_eqb a' b'
  | _, _ => false
  end.

(** [d.get(k)]: the value of the item whose key equals [k], [None] when
    there is none. *)
Fixpoint dict_get {V} (k : text) (d : list (text * V)) : option V :=
  match d with
  | [] => None
  | (k', v) :: d' => if text_eqb k k' then Some v else dict_get k d'
  end.

(** [d[k] = v]: a key already present keeps its key and its place and gets
    the new value; a new key is appended at the end. *)
Fixpoint dict_set {V} (k : text) (v : V) (d : list (text * V)) : list (text * V) :=
  match d with
  | [] => [(k, v)]
  | (k', v') :: d' => if text_eqb k k' then (k', v) :: d' else (k', v') :: dict_set k v d'
  end.

(** [d.update(kvs)] for a dict [kvs]: [d[k] = v] for each item of [kvs], in
    order. *)
Definition dict_update {V} (d kvs : list (text * V)) : list (text * V) :=
  fold_left (fun acc kv => dict_set (fst kv) (snd kv) acc) kvs d.

(** [_merge_configs(base, overlay)] (lines 150-160) for an object [overlay],
    line by line:
    - [out = dict(base)]: a copy of [base] with its items in order; the
      model is pure, so the copy is [base] itself, the start of the fold;
    - [for ns, kv in (overlay or {}).items()]: the items of [overlay] in
      order; [overlay or {}] is [overlay] unless [overlay] is falsy, that is
      empty, when both have no items;
    - [if isinstance(kv, dict) and isinstance(out.get(ns), dict)]: [kv] is an
      [NsDict] and [out.get(ns)] is [Some (NsDict _)] ([None] when [ns] is
      not in [out], which is not a dict);
    - [merged = dict(out[ns]); merged.update(kv); out[ns] = merged]:
      [dict_update] of the object in [out] with [kv], stored by [dict_set];
    - [else: out[ns] = kv]: [dict_set] with [overlay]'s value;
    - [return out]: the result of the fold. *)
Definition merge_configs (base overlay : config) : config :=
  fold_left (fun out e =>
    match snd e, dict_get (fst e) out with
    | NsDict kv, Some (NsDict b) => dict_set (fst e) (NsDict (dict_update b kv)) out
    | _, _ => dict_set (fst e) (snd e) out
    end) overlay base.

(** ** Port selection: [pick_port] (program.py lines 21-54; the same code in
    serial_connection.py lines 35-67 and provision.py) *)

Record port := Port {
  device : option text;        (* p.device *)
  description : option text;   (* p.description *)
  vid : option Z;
  pid : option Z
}.

Inductive pick_result :=
| Picked (dev : option text)   (* the returned device *)
| NoPorts.                     (* sys.exit(2) / RuntimeError *)

Section PickPort.

(** [str.lower]. *)
Variable lower : text -> text.

Definition or_empty (o : option text) : text :=
  match o with Some s => s | None => [] end.

Definition port_score (p : port) : Z :=
  let device_lower := lower (or_empty (device p)) in
  let desc_lower := lower (or_empty (description p)) in
  let s0 := 0 in
  let s1 := if contains Z.eqb (txt "usbserial") device_lower
               || contains Z.eqb (txt "usbmodem") device_lower
               || contains Z.eqb (txt "wchusbserial") device_lower
               || contains Z.eqb (txt "slab_usbto") device_lower
               || contains Z.eqb (txt "usb") device_lower
            then s0 + 100 else s0 in
  let s2 := if contains Z.eqb (txt "usb") desc_lower then s1 + 50 else s1 in
  let s3 := if contains Z.eqb (txt "bluetooth") device_lower
               || contains Z.eqb (txt "bluetooth") desc_lower
            then s2 - 200 else s2 in
  match vid p, pid p with
  | Some _, Some _ => s3 + 10
  | _, _ => s3
  end.

Definition is_bluetooth (p : port) : bool :=
  contains Z.eqb (txt "bluetooth") (lower (or_empty (device p)))
  || contains Z.eqb (txt "bluetooth") (lower (or_empty (description p))).

(** [sorted(ports, key=port_score, reverse=True)]: a stable sort, so ports
    of equal score keep their order. *)
Fixpoint insert_desc (p : port) (l : list port) : list port :=
  match l with
  | [] => [p]
  | q :: l' => if port_score p <=? port_score q then q :: insert_desc p l' else p :: l
  end.

Definition sorted_desc (ports : list port) : list port :=
  fold_left (fun acc p => insert_desc p acc) ports [].

Definition pick_port (preferred : option text) (ports : list port) : pick_result :=
  let scan := match sorted_desc ports with
              | [] => NoPorts
              | best :: _ => Picked (device best)
              end in
  match preferred with
  | Some u => if is_empty u then scan else Picked (Some u)
  | None => scan
  end.

End PickPort.

(** ** Vocabulary of the properties below *)

(** [l1] is [l2] with some elements deleted. *)
Inductive subseq {A} : list A -> list A -> Prop :=
| subseq_nil : subseq [] []
| subseq_keep x l1 l2 : subseq l1 l2 -> subseq (x :: l1) (x :: l2)
| subseq_drop x l1 l2 : subseq l1 l2 -> subseq l1 (x :: l2).

(** The time of the last non-empty read of [pre], or [last] if there is none. *)
Definition last_data_after (last : Z) (pre : list read_obs) : Z :=
  fold_left (fun l o => if is_empty (r_data o) then l else r_now o) pre last.

(** A code point that [str.encode("utf-8")] accepts. *)
Definition scalar_value (c : Z) : Prop := 0 <= c <= 1114111 /\ ~ (55296 <= c <= 57343).

(** A matcher that, when it matches, returns a suffix of its input. *)
Definition suffix_matcher (m : text -> option text) : Prop :=
  forall s r, m s = Some r -> exists k, r = skipn k s.

(** The two replaces of [_escape_str_value] act on each character alone. *)
Definition escape_char (c : Z) : text :=
  if c =? 92 then [92; 92] else if c =? 34 then [92; 34] else [c].

(** The provisioning commands as the config format reads: after
    [log_level * none], each namespace whose value is an object, in order,
    gives [nvs_namespace <ns>] followed by one [nvs_set <key> <type> -v <value>]
    per key, in order: booleans as [u8] 1 or 0, integers as [i32] in decimal,
    anything else as a quoted [str] with backslashes and quotes escaped;
    other namespaces give nothing; [restart] comes last. *)
Definition expected_set_line (key : text) (v : jvalue) : text :=
  txt "nvs_set " ++ key ++
  match v with
  | JBool true => txt " u8 -v 1"
  | JBool false => txt " u8 -v 0"
  | JInt z => txt " i32 -v " ++ int_str z
  | JOther sv => txt " str -v " ++ [34] ++ escape_str_value sv ++ [34]
  end.

Fixpoint expected_namespace_lines (data : config) : list text :=
  match data with
  | [] => []
  | (ns, NsDict kvs) :: data' =>
      (txt "nvs_namespace " ++ ns) :: map (fun kv => expected_set_line (fst kv) (snd kv)) kvs
      ++ expected_namespace_lines data'
  | (_, NsOther _) :: data' => expected_namespace_lines data'
  end.

Definition expected_commands (data : config) : list text :=
  txt "log_level * none" :: expected_namespace_lines data ++ [txt "restart"].

(** What [_merge_configs] stores under a namespace, given what [base] and
    [overlay] hold there. *)
Definition merged_value (ov bv : option nsvalue) : option nsvalue :=
  match ov, bv with
  | Some (NsDict o), Some (NsDict b) => Some (NsDict (dict_update b o))
  | Some v, _ => Some v
  | None, _ => bv
  end.

(** A [preferred] argument that is falsy ([None] or the empty string). *)
Definition no_preference (preferred : option text) : Prop :=
  preferred = None \/ preferred = Some [].

(** [str.lower] on ASCII text, for concrete port lists. *)
Definition ascii_lower (t : text) : text :=
  map (fun c => if (65 <=? c) && (c <=? 90) then c + 32 else c) t.

(** * Properties *)

(** ** Buffer store *)

Lemma skipn_app_le {A} (n : nat) (l1 l2 : list A) :
  (n <= length l1)%nat -> skipn n (l1 ++ l2) = skipn n l1 ++ l2.
Proof.
  intros H. rewrite skipn_app. replace (n - length l1)%nat with 0%nat by lia. reflexivity.
Qed.

Lemma read_loop_step_state (limit : Z) (d : bytes) (s : conn) :
  snd (read_loop_step limit d s) =
  if is_empty d then s else append_data limit (buffered_of d) s.
Proof.
  unfold read_loop_step, buffered_of. destruct (is_empty d); [reflexivity|].
  destruct (answer_cpr d) as [w d']. reflexivity.
Qed.

Lemma read_loop_cons_state (limit : Z) (d : bytes) (reads : list bytes) (s : conn) :
  snd (read_loop limit (d :: reads) s) =
  snd (read_loop limit reads (snd (read_loop_step limit d s))).
Proof.
  cbn [read_loop]. destruct (read_loop_step limit d s) as [w1 s1].
  destruct (read_loop limit reads s1) as [w2 s2] eqn:E. cbn. rewrite E. reflexivity.
Qed.

Lemma buffered_of_empty (d : bytes) : is_empty d = true -> buffered_of d = [].
Proof. unfold buffered_of. intros ->. reflexivity. Qed.

(** With a non-negative limit, one append drops a prefix of the extended
    buffer, advances the base index by its length, and leaves at most
    [limit] bytes. *)
Lemma append_data_spec (limit : Z) (d : bytes) (s : conn) :
  0 <= limit ->
  exists e : nat,
    buf (append_data limit d s) = skipn e (buf s ++ d) /\
    buf_base_index (append_data limit d s) = buf_base_index s + Z.of_nat e /\
    (e <= length (buf s ++ d))%nat /\
    Z.of_nat (length (buf (append_data limit d s))) <= limit.
Proof.
  intros Hl. unfold append_data.
  destruct (limit <? Z.of_nat (length (buf s ++ d))) eqn:Hc.
  - apply Z.ltb_lt in Hc.
    exists (Z.to_nat (Z.of_nat (length (buf s ++ d)) - limit)). cbn [buf buf_base_index].
    repeat split.
    + rewrite Z2Nat.id; lia.
    + lia.
    + rewrite length_skipn. lia.
  - apply Z.ltb_ge in Hc.
    exists 0%nat. cbn [buf buf_base_index]. repeat split; try lia.
Qed.

Lemma append_data_neg_limit (limit : Z) (d : bytes) (s : conn) :
  limit < 0 -> buf (append_data limit d s) = [].
Proof.
  intros Hl. unfold append_data.
  destruct (limit <? Z.of_nat (length (buf s ++ d))) eqn:Hc.
  - cbn [buf]. apply skipn_all2. lia.
  - apply Z.ltb_ge in Hc. lia.
Qed.

(** The reader loop keeps the buffer a suffix of everything it held or was
    given, and advances the base index by exactly what it dropped. *)
Lemma read_loop_suffix (limit : Z) (reads : list bytes) (s : conn) :
  0 <= limit ->
  let t := snd (read_loop limit reads s) in
  exists e : nat,
    buf t = skipn e (buf s ++ concat (map buffered_of reads)) /\
    buf_base_index t = buf_base_index s + Z.of_nat e /\
    (e <= length (buf s ++ concat (map buffered_of reads)))%nat.
Proof.
  intros Hl. revert s. induction reads as [|d reads IH]; intros s; cbn zeta.
  - exists 0%nat. cbn. rewrite app_nil_r. repeat split; lia.
  - rewrite read_loop_cons_state, read_loop_step_state.
    destruct (is_empty d) eqn:Hd.
    + destruct (IH s) as (e & H1 & H2 & H3).
      exists e. cbn [map concat]. rewrite (buffered_of_empty d Hd). cbn [app].
      repeat split; assumption.
    + destruct (append_data_spec limit (buffered_of d) s Hl) as (e1 & A1 & A2 & A3 & _).
      destruct (IH (append_data limit (buffered_of d) s)) as (e2 & H1 & H2 & H3).
      exists (e2 + e1)%nat. cbn [map concat].
      rewrite A1, <- (skipn_app_le e1 (buf s ++ buffered_of d)) in H1 by exact A3.
      rewrite A1, length_app, length_skipn, length_app in H3.
      rewrite H1, <- app_assoc, skipn_skipn.
      repeat split.
      * rewrite H2, A2. lia.
      * rewrite !length_app in *. lia.
Qed.

Lemma read_loop_bounded (limit : Z) (reads : list bytes) (s : conn) :
  0 <= limit -> Z.of_nat (length (buf s)) <= limit ->
  Z.of_nat (length (buf (snd (read_loop limit reads s)))) <= limit.
Proof.
  intros Hl. revert s. induction reads as [|d reads IH]; intros s Hs; [exact Hs|].
  rewrite read_loop_cons_state, read_loop_step_state. apply IH.
  destruct (is_empty d); [exact Hs|].
  destruct (append_data_spec limit (buffered_of d) s Hl) as (e & _ & _ & _ & H). exact H.
Qed.

Lemma read_loop_neg_limit (limit : Z) (reads : list bytes) (s : conn) :
  limit < 0 ->
  snd (read_loop limit reads s) = s \/ buf (snd (read_loop limit reads s)) = [].
Proof.
  intros Hl. revert s. induction reads as [|d reads IH]; intros s; [left; reflexivity|].
  rewrite read_loop_cons_state, read_loop_step_state.
  destruct (is_empty d); [apply IH|].
  destruct (IH (append_data limit (buffered_of d) s)) as [H|H]; right; [|exact H].
  rewrite H. apply append_data_neg_limit. exact Hl.
Qed.

Lemma snapshot_bytes_own_mark (s : conn) : snapshot_bytes s (Some (mark s)) = [].
Proof.
  unfold snapshot_bytes, mark. apply skipn_all2. lia.
Qed.

(** The bytes a query scoped to the mark of [s] reads, after any further
    reads, are a suffix of the bytes buffered after the mark was taken. *)
Lemma snapshot_after_mark (limit : Z) (s : conn) (reads : list bytes) :
  exists j : nat,
    snapshot_bytes (snd (read_loop limit reads s)) (Some (mark s)) =
    skipn j (concat (map buffered_of reads)).
Proof.
  set (D := concat (map buffered_of reads)).
  destruct (Z_lt_le_dec limit 0) as [Hl|Hl].
  - exists (length D). rewrite skipn_all.
    destruct (read_loop_neg_limit limit reads s Hl) as [H|H].
    + rewrite H. apply snapshot_bytes_own_mark.
    + unfold snapshot_bytes. rewrite H. apply skipn_nil.
  - destruct (read_loop_suffix limit reads s Hl) as (e & H1 & H2 & H3). fold D in H1, H2, H3.
    exists (Nat.max (length (buf s)) e - length (buf s))%nat.
    unfold snapshot_bytes, mark. rewrite H1, H2, skipn_skipn.
    replace (Z.to_nat (Z.max 0 (buf_base_index s + Z.of_nat (length (buf s))
                                 - (buf_base_index s + Z.of_nat e))) + e)%nat
      with (Nat.max (length (buf s)) e) by lia.
    rewrite skipn_app, skipn_all2 by lia. reflexivity.
Qed.

(** ** Claims on the buffer store *)

(** C1: with a non-negative limit, after any sequence of reads from a fresh
    connection the raw buffer holds at most [limit] bytes, it is exactly the
    appended bytes with the first [base_offset] of them dropped (so
    [base_offset] is the evicted count), and its length plus [base_offset]
    is the number of bytes ever appended. *)
Theorem read_loop_buffer_invariant (limit : Z) (reads : list bytes) :
  0 <= limit ->
  let s := snd (read_loop limit reads conn_init) in
  let appended := concat (map buffered_of reads) in
  Z.of_nat (length (buf s)) <= limit /\
  buf s = skipn (Z.to_nat (buf_base_index s)) appended /\
  Z.of_nat (length (buf s)) + buf_base_index s = Z.of_nat (length appended).
Proof.
  intros Hl s appended.
  destruct (read_loop_suffix limit reads conn_init Hl) as (e & H1 & H2 & H3).
  fold s appended in H1, H2, H3. unfold conn_init in H1, H2, H3.
  cbn [buf buf_base_index app] in H1, H2, H3.
  split; [|split].
  - unfold s. apply read_loop_bounded; [exact Hl | cbn; lia].
  - rewrite H1, H2. f_equal. lia.
  - rewrite H1, H2, length_skipn. lia.
Qed.

Lemma read_loop_buffer_invariant_witness :
  0 <= 4 /\
  (let s := snd (read_loop 4 [[x41; x42; x43]; []; [x44; x45; x46]] conn_init) in
   let appended := concat (map buffered_of [[x41; x42; x43]; []; [x44; x45; x46]]) in
   Z.of_nat (length (buf s)) <= 4 /\
   buf s = skipn (Z.to_nat (buf_base_index s)) appended /\
   Z.of_nat (length (buf s)) + buf_base_index s = Z.of_nat (length appended)).
Proof.
  split; [lia|]. apply (read_loop_buffer_invariant 4). lia.
Defined.

(** C2: take a mark [mark s] (the logical end of the buffer) in any state [s]
    and let the reader loop process any further reads, with any limit. The
    raw bytes of a query scoped to that mark are a suffix of the bytes
    buffered after the mark, so its text (what [assert_contains],
    [assert_matches] and [wait_match] search) is computed from those bytes
    only, also once eviction has moved the base index past the mark. *)
Theorem mark_query_only_sees_later_bytes (limit : Z) (s : conn) (reads : list bytes) :
  let t := snd (read_loop limit reads s) in
  exists j : nat,
    snapshot_bytes t (Some (mark s)) = skipn j (concat (map buffered_of reads)) /\
    snapshot_from t (Some (mark s)) = sanitize (decode (skipn j (concat (map buffered_of reads)))).
Proof.
  intros t. destruct (snapshot_after_mark limit s reads) as [j Hj].
  exists j. split; [exact Hj|]. unfold snapshot_from. fold t in Hj. rewrite Hj. reflexivity.
Qed.

(** C3: with limit 1000, two appends of 750 bytes each leave 1000 bytes and a
    base index of 500; a query scoped to the earlier mark 200 reads the whole
    buffer, from its first byte. *)
Theorem eviction_scenario (a b : bytes) :
  length a = 750%nat -> length b = 750%nat ->
  let s := append_data 1000 b (append_data 1000 a conn_init) in
  length (buf s) = 1000%nat /\ buf_base_index s = 500 /\
  buf s = skipn 500 (a ++ b) /\
  snapshot_bytes s (Some 200) = buf s /\
  snapshot_from s (Some 200) = snapshot_from s None.
Proof.
  intros Ha Hb s.
  assert (E1 : append_data 1000 a conn_init = Conn a 0).
  { unfold append_data, conn_init. cbn [buf buf_base_index app]. rewrite Ha. reflexivity. }
  assert (E2 : s = Conn (skipn 500 (a ++ b)) 500).
  { unfold s. rewrite E1. unfold append_data. cbn [buf buf_base_index].
    rewrite length_app, Ha, Hb. reflexivity. }
  rewrite E2. unfold snapshot_from, snapshot_bytes. cbn [buf buf_base_index].
  repeat split.
  - rewrite length_skipn, length_app, Ha, Hb. reflexivity.
Qed.

Lemma eviction_scenario_witness :
  length (repeat x41 750) = 750%nat /\ length (repeat x42 750) = 750%nat /\
  (let s := append_data 1000 (repeat x42 750) (append_data 1000 (repeat x41 750) conn_init) in
   length (buf s) = 1000%nat /\ buf_base_index s = 500 /\
   buf s = skipn 500 (repeat x41 750 ++ repeat x42 750) /\
   snapshot_bytes s (Some 200) = buf s /\
   snapshot_from s (Some 200) = snapshot_from s None).
Proof.
  split; [apply repeat_length|]. split; [apply repeat_length|].
  apply eviction_scenario; apply repeat_length.
Defined.

(** ** Terminal query emulation *)

Lemma strip_cpr_cons (c : Byte.byte) (rest : bytes) :
  strip_cpr (c :: rest) =
  if is_prefix Byte.eqb cpr_query (c :: rest) then strip_cpr (skipn 3 rest)
  else c :: strip_cpr rest.
Proof.
  destruct c; try reflexivity.
  destruct rest as [|c2 r2]; [reflexivity|]. destruct c2; try reflexivity.
  destruct r2 as [|c3 r3]; [reflexivity|]. destruct c3; try reflexivity.
  destruct r3 as [|c4 r4]; [reflexivity|]. destruct c4; reflexivity.
Qed.

Lemma is_prefix_cpr (c : Byte.byte) (rest : bytes) :
  is_prefix Byte.eqb cpr_query (c :: rest) = true ->
  c :: rest = cpr_query ++ skipn 3 rest.
Proof.
  unfold cpr_query.
  destruct rest as [|c2 [|c3 [|c4 r]]]; cbn [is_prefix skipn app];
    rewrite ?andb_false_r; try discriminate.
  rewrite !andb_true_iff. intros (H1 & H2 & H3 & H4 & _).
  apply Byte.byte_dec_bl in H1, H2, H3, H4. subst. reflexivity.
Qed.

Lemma join_bytes_cons (sep p : bytes) (parts : list bytes) :
  parts <> [] -> join_bytes sep (p :: parts) = p ++ sep ++ join_bytes sep parts.
Proof. destruct parts; [congruence | reflexivity]. Qed.

(** The [replace] of the reader loops splits [data] at the query occurrences it
    removes and keeps the text between them, in order; when the query occurs
    at all, at least one occurrence is removed. *)
Lemma strip_cpr_parts (l : bytes) :
  exists parts : list bytes,
    parts <> [] /\ l = join_bytes cpr_query parts /\ strip_cpr l = concat parts /\
    (contains Byte.eqb cpr_query l = true -> (2 <= length parts)%nat).
Proof.
  remember (length l) as n eqn:Hn. revert l Hn.
  induction n as [n IH] using (well_founded_induction lt_wf). intros l Hn.
  destruct l as [|c rest].
  - exists [[]]. split; [discriminate|]. split; [reflexivity|]. split; [reflexivity|].
    cbn. intros H; discriminate H.
  - rewrite strip_cpr_cons.
    destruct (is_prefix Byte.eqb cpr_query (c :: rest)) eqn:Hp.
    + pose proof (is_prefix_cpr c rest Hp) as Hl.
      destruct (IH (length (skipn 3 rest))) with (l := skipn 3 rest)
        as (parts & P1 & P2 & P3 & _); [rewrite Hn, length_skipn; cbn; lia | reflexivity |].
      exists ([] :: parts). repeat split.
      * discriminate.
      * rewrite join_bytes_cons by exact P1. rewrite <- P2. exact Hl.
      * exact P3.
      * intros _. destruct parts; [congruence|]. cbn. lia.
    + destruct (IH (length rest)) with (l := rest)
        as (parts & P1 & P2 & P3 & P4); [rewrite Hn; cbn; lia | reflexivity |].
      destruct parts as [|p parts]; [congruence|].
      exists ((c :: p) :: parts). repeat split.
      * discriminate.
      * destruct parts as [|p' parts]; [cbn in *; congruence|].
        rewrite join_bytes_cons by discriminate.
        rewrite join_bytes_cons in P2 by discriminate. rewrite P2. reflexivity.
      * rewrite P3. reflexivity.
      * cbn [contains]. rewrite Hp. cbn [orb]. intros Hc. apply P4 in Hc. cbn in *. lia.
Qed.

(** C4: a chunk that contains the 4-byte query [ESC [ 6 n] makes the reader
    loop write the 6-byte reply [ESC [ 1 ; 1 R] exactly once (one reply,
    however many queries the chunk holds), and what it buffers is the chunk
    with the query occurrences cut out: the chunk is [p0 ++ Q ++ p1 ++ ... ++ Q ++ pn]
    for at least one [Q], and the buffered bytes are [p0 ++ p1 ++ ... ++ pn].
    [answer_cpr] is also the step of [send_line_and_capture]. *)
Theorem cpr_query_answered_once (limit : Z) (data : bytes) (s : conn) :
  contains Byte.eqb cpr_query data = true ->
  answer_cpr data = ([cpr_reply], strip_cpr data) /\
  read_loop_step limit data s = ([cpr_reply], append_data limit (strip_cpr data) s) /\
  exists parts : list bytes,
    (2 <= length parts)%nat /\ data = join_bytes cpr_query parts /\
    strip_cpr data = concat parts.
Proof.
  intros Hc.
  assert (Ha : answer_cpr data = ([cpr_reply], strip_cpr data)).
  { unfold answer_cpr. rewrite Hc. reflexivity. }
  split; [exact Ha|]. split.
  - unfold read_loop_step. destruct data as [|c rest]; [discriminate Hc|].
    cbn [is_empty]. rewrite Ha. reflexivity.
  - destruct (strip_cpr_parts data) as (parts & _ & P2 & P3 & P4).
    exists parts. auto.
Qed.

Lemma cpr_query_answered_once_witness :
  contains Byte.eqb cpr_query [x41; x1b; x5b; x36; x6e; x42] = true /\
  (answer_cpr [x41; x1b; x5b; x36; x6e; x42] =
     ([cpr_reply], strip_cpr [x41; x1b; x5b; x36; x6e; x42]) /\
   read_loop_step 1000 [x41; x1b; x5b; x36; x6e; x42] conn_init =
     ([cpr_reply], append_data 1000 (strip_cpr [x41; x1b; x5b; x36; x6e; x42]) conn_init) /\
   exists parts : list bytes,
     (2 <= length parts)%nat /\ [x41; x1b; x5b; x36; x6e; x42] = join_bytes cpr_query parts /\
     strip_cpr [x41; x1b; x5b; x36; x6e; x42] = concat parts).
Proof.
  split; [reflexivity|]. apply cpr_query_answered_once. reflexivity.
Defined.

(** ** Command channel *)

(** The loop of [_wait_echo] runs through polls before the deadline that do
    not find the needle, sleeping 50 ms after each. *)
Lemma wait_echo_loop_skip (needle : text) (deadline : Z) (pre rest : list poll_obs) :
  Forall (fun o' => p_now o' < deadline /\
                    contains Z.eqb needle (snapshot_text (p_state o')) = false) pre ->
  wait_echo_loop needle deadline (pre ++ rest) =
    let '(ev, r) := wait_echo_loop needle deadline rest in
    (repeat (TSleep 50) (length pre) ++ ev, r).
Proof.
  intros H. induction H as [|o pre [Ht Hc] _ IH]; cbn [app length repeat].
  - destruct (wait_echo_loop needle deadline rest); reflexivity.
  - cbn [wait_echo_loop]. apply Z.ltb_lt in Ht. rewrite Ht, Hc, IH.
    destruct (wait_echo_loop needle deadline rest); reflexivity.
Qed.

(** C5 (code_bug): [send_command] returns the mark taken before writing (base
    index plus buffer length) and never raises. Its [try] block writes
    [line + "\r\n"] as one write and flushes ([write_flush]). [_wait_echo]
    then polls, 50 ms apart and only while the clock reads before
    [t0 + 2000], for [line + "\n"] in the text of the WHOLE buffer
    ([_snapshot_text]), not in the text after the mark: a poll whose buffer
    holds the needle anywhere, also before the mark, ends the wait with
    [True]; the first clock reading at or past the deadline ends it with
    [False]; while neither happens the loop keeps polling. *)
Theorem send_command_echo_whole_buffer (ok : list bool) (line : text) (s : conn) (t0 : Z)
    (pre : list poll_obs) (o : poll_obs) (post : list poll_obs) :
  Forall (fun o' => p_now o' < t0 + 2000 /\
                    contains Z.eqb (line ++ [LF]) (snapshot_text (p_state o')) = false) pre ->
  send_command ok line s t0 pre =
    (mark s, write_flush ok (encode (line ++ [13; 10])) ++ repeat (TSleep 50) (length pre),
     None) /\
  (p_now o < t0 + 2000 ->
   contains Z.eqb (line ++ [LF]) (snapshot_text (p_state o)) = true ->
   send_command ok line s t0 (pre ++ o :: post) =
     (mark s, write_flush ok (encode (line ++ [13; 10])) ++ repeat (TSleep 50) (length pre),
      Some true)) /\
  (t0 + 2000 <= p_now o ->
   send_command ok line s t0 (pre ++ o :: post) =
     (mark s, write_flush ok (encode (line ++ [13; 10])) ++ repeat (TSleep 50) (length pre),
      Some false)).
Proof.
  intros H. unfold send_command, wait_echo. split; [|split].
  - rewrite <- (app_nil_r pre) at 1. rewrite (wait_echo_loop_skip _ _ pre [] H).
    cbn [wait_echo_loop]. rewrite !app_nil_r. reflexivity.
  - intros Ht Hc. rewrite (wait_echo_loop_skip _ _ pre (o :: post) H). cbn [wait_echo_loop].
    apply Z.ltb_lt in Ht. rewrite Ht, Hc, app_nil_r. reflexivity.
  - intros Ht. rewrite (wait_echo_loop_skip _ _ pre (o :: post) H). cbn [wait_echo_loop].
    apply Z.ltb_ge in Ht. rewrite Ht, app_nil_r. reflexivity.
Qed.

(** The buffer already ends with the echo of an earlier [ls]; [send_command
    "ls"] takes its mark after it, so the text after the mark is empty, yet
    the first poll, at time 0, reports the echo: one write of [ls\r\n], one
    flush and no sleep. *)
Lemma send_command_echo_whole_buffer_witness :
  snapshot_from (Conn [x6c; x73; x0a] 0) (Some (mark (Conn [x6c; x73; x0a] 0))) = [] /\
  send_command [] [108; 115] (Conn [x6c; x73; x0a] 0) 0 [PollObs 0 (Conn [x6c; x73; x0a] 0)] =
    (3, [TWrite [x6c; x73; x0d; x0a]; TFlush], Some true).
Proof.
  split; [vm_compute; reflexivity|].
  destruct (send_command_echo_whole_buffer [] [108; 115] (Conn [x6c; x73; x0a] 0) 0 []
              (PollObs 0 (Conn [x6c; x73; x0a] 0)) [] (Forall_nil _)) as (_ & H & _).
  etransitivity; [apply H; vm_compute; reflexivity|]. vm_compute. reflexivity.
Defined.

(** ** [send_line_and_capture] *)

Lemma capture_loop_chatty (start last_data : Z) (acc : bytes) (obs : list read_obs) :
  Forall (fun o => is_empty (r_data o) = false) obs ->
  exists acc', snd (capture_loop start last_data acc obs) = StillReading acc'.
Proof.
  intros H. revert last_data acc.
  induction H as [|o obs Ho Hobs IH]; intros last_data acc; cbn [capture_loop].
  - exists acc. reflexivity.
  - rewrite Ho. cbn [negb].
    destruct (answer_cpr (r_data o)) as [w d].
    destruct (IH (r_now o) (acc ++ d)) as [acc' Hacc].
    destruct (capture_loop start (r_now o) (acc ++ d) obs) as [ev res].
    exists acc'. exact Hacc.
Qed.

(** C6 (code_bug): the 6 s cap of [send_line_and_capture] is tested only
    after a read that returned nothing. As long as every read returns data,
    the loop never stops, whatever the clock says. *)
Theorem send_line_and_capture_no_max_wait_while_data (line : text) (start : Z)
    (obs : list read_obs) :
  Forall (fun o => is_empty (r_data o) = false) obs ->
  exists acc, snd (send_line_and_capture line start obs) = StillReading acc.
Proof.
  intros H. unfold send_line_and_capture.
  destruct (capture_loop_chatty start start [] obs H) as [acc Hacc].
  destruct (capture_loop start start [] obs) as [ev res]. cbn in Hacc.
  exists acc. exact Hacc.
Qed.

(** One byte every 100 ms for 10 s: at the 100th read, 9.9 s after the
    write, the loop is still reading. *)
Definition chatty_reads : list read_obs :=
  map (fun k => ReadObs [x41] (100 * Z.of_nat k)) (seq 0 100).

Lemma send_line_and_capture_no_max_wait_while_data_witness :
  Forall (fun o => is_empty (r_data o) = false) chatty_reads /\
  last (map r_now chatty_reads) 0 = 9900 /\
  exists acc, snd (send_line_and_capture [108; 115] 0 chatty_reads) = StillReading acc.
Proof.
  assert (H : Forall (fun o => is_empty (r_data o) = false) chatty_reads).
  { unfold chatty_reads. apply Forall_map, Forall_forall. intros k _. reflexivity. }
  split; [exact H|]. split; [vm_compute; reflexivity|].
  apply send_line_and_capture_no_max_wait_while_data. exact H.
Defined.

(** ** [wait_for_idle] *)

(** A connection with a 4-byte limit whose buffer is full, and a device that
    sends one byte in every 100 ms sleep of the poll loop. *)
Definition full_conn : conn := Conn [x41; x41; x41; x41] 0.

Definition byte_per_poll : list idle_obs :=
  map (fun k => IdleObs (100 * Z.of_nat k) [[x42]] (100 * Z.of_nat (S k)) (100 * Z.of_nat (S k)))
      (seq 0 30).

(** C7 (code_bug): [wait_for_idle] measures growth with [len(self._buf)].
    Once the buffer is at its limit, a new byte is followed by the eviction
    of an old one, the length stays put, and the loop returns "idle" after
    [silence_s] although a byte arrived during every poll; with a limit the
    buffer does not reach, the same input never looks idle. *)
Theorem wait_for_idle_full_buffer_reports_idle :
  Forall (fun o => i_reads o <> []) byte_per_poll /\
  snd (wait_for_idle 4 1000 20000 0 0 full_conn byte_per_poll) = IdleReturned /\
  snd (wait_for_idle 1000000 1000 20000 0 0 full_conn byte_per_poll) = IdlePending /\
  buf_base_index (snd (read_loop 4 (concat (map i_reads byte_per_poll)) full_conn)) = 30.
Proof.
  split.
  - unfold byte_per_poll. apply Forall_map, Forall_forall. intros k _. discriminate.
  - vm_compute. repeat split.
Qed.

(** ** [assert_contains] *)

Lemma assert_message_shape (fail_header : text -> Z -> text) (needle : text)
    (timeout_ms : Z) (hay : text) :
  assert_message fail_header needle timeout_ms hay =
  fail_header needle timeout_ms ++ LF :: captured_open ++ LF :: hay ++ LF :: captured_close.
Proof.
  unfold assert_message, str_lines. cbn [map concat]. rewrite app_nil_r.
  cbn [app]. reflexivity.
Qed.

(** The loop of [assert_contains] runs through polls whose text from the
    mark on lacks the needle and whose clock reading is before the deadline,
    sleeping [poll_s] after each. *)
Lemma assert_loop_skip (fail_header : text -> Z -> text) (needle : text)
    (start_pos : option Z) (timeout_ms deadline poll_ms : Z) (pre rest : list poll_obs) :
  Forall (fun o' => contains Z.eqb needle (snapshot_from (p_state o') start_pos) = false /\
                    p_now o' < deadline) pre ->
  assert_loop fail_header needle start_pos timeout_ms deadline poll_ms (pre ++ rest) =
    let '(ev, r) := assert_loop fail_header needle start_pos timeout_ms deadline poll_ms rest in
    (repeat (TSleep poll_ms) (length pre) ++ ev, r).
Proof.
  intros H. induction H as [|o pre [Hc Ht] _ IH]; cbn [app length repeat].
  - destruct (assert_loop fail_header needle start_pos timeout_ms deadline poll_ms rest);
      reflexivity.
  - cbn [assert_loop]. apply Z.leb_gt in Ht. rewrite Hc, Ht, IH.
    destruct (assert_loop fail_header needle start_pos timeout_ms deadline poll_ms rest);
      reflexivity.
Qed.

(** C8: [assert_contains(needle, start_pos=mark, timeout_s)] polls the text
    from the mark on, sleeping [poll_s] (50 ms by default) between polls,
    until one of two things happens. At the first poll whose text holds
    [needle] it returns. Otherwise, at the first poll whose deadline test
    finds [t0 + timeout] reached, it raises an [AssertionError] whose message
    holds, on lines of their own between the two markers, the whole text from
    the mark on read by that poll. While neither happens it keeps polling. *)
Theorem assert_contains_failure_carries_transcript (fail_header : text -> Z -> text)
    (needle : text) (start_pos : option Z) (timeout_ms poll_ms t0 : Z)
    (pre : list poll_obs) (o : poll_obs) (post : list poll_obs) :
  Forall (fun o' => contains Z.eqb needle (snapshot_from (p_state o') start_pos) = false /\
                    p_now o' < t0 + timeout_ms) pre ->
  assert_contains fail_header needle start_pos timeout_ms poll_ms t0 pre =
    (repeat (TSleep poll_ms) (length pre), AssertPending) /\
  (contains Z.eqb needle (snapshot_from (p_state o) start_pos) = true ->
   assert_contains fail_header needle start_pos timeout_ms poll_ms t0 (pre ++ o :: post) =
     (repeat (TSleep poll_ms) (length pre), AssertOk)) /\
  (contains Z.eqb needle (snapshot_from (p_state o) start_pos) = false ->
   t0 + timeout_ms <= p_now o ->
   assert_contains fail_header needle start_pos timeout_ms poll_ms t0 (pre ++ o :: post) =
     (repeat (TSleep poll_ms) (length pre),
      AssertRaised (fail_header needle timeout_ms ++ LF :: captured_open ++ LF ::
                    snapshot_from (p_state o) start_pos ++ LF :: captured_close))).
Proof.
  intros H. unfold assert_contains. split; [|split].
  - rewrite <- (app_nil_r pre) at 1. rewrite (assert_loop_skip _ _ _ _ _ _ pre [] H).
    cbn [assert_loop]. rewrite app_nil_r. reflexivity.
  - intros Hc. rewrite (assert_loop_skip _ _ _ _ _ _ pre (o :: post) H). cbn [assert_loop].
    rewrite Hc, app_nil_r. reflexivity.
  - intros Hc Ht. rewrite (assert_loop_skip _ _ _ _ _ _ pre (o :: post) H). cbn [assert_loop].
    apply Z.leb_le in Ht. rewrite Hc, Ht, app_nil_r, assert_message_shape. reflexivity.
Qed.

(** [assert_contains("ok", start_pos=1, timeout_s=0.1)] on a buffer
    [xo] that never grows: the poll at 50 ms fails, the one at 100 ms raises,
    and the transcript is [o], the text after the mark. *)
Lemma assert_contains_failure_carries_transcript_witness :
  assert_contains (fun _ _ => []) [111; 107] (Some 1) 100 50 0
    [PollObs 50 (Conn [x78; x6f] 0); PollObs 100 (Conn [x78; x6f] 0)] =
  ([TSleep 50],
   AssertRaised ([] ++ LF :: captured_open ++ LF :: [111] ++ LF :: captured_close)).
Proof.
  destruct (assert_contains_failure_carries_transcript (fun _ _ => []) [111; 107] (Some 1)
              100 50 0 [PollObs 50 (Conn [x78; x6f] 0)] (PollObs 100 (Conn [x78; x6f] 0)) []
              ltac:(repeat constructor)) as (_ & _ & H).
  apply H; [vm_compute; reflexivity | cbn; lia].
Defined.

(** ** Reset sequencer *)

(** C9, as the code has it: [reset_run] takes its mark before touching any
    control line. It then releases boot-select ([setDTR(False)]), waits
    20 ms, asserts reset ([setRTS(True)]), waits 100 ms and deasserts it
    ([setRTS(False)]). The first of these three calls that raises ends the
    sequence: the calls after it are not made and the sleeps after it are not
    taken. In every case it then sleeps [wait_after_s] and returns the mark.
    [nth i ok true] tells whether the [i]-th control-line call returns.
    Every byte buffered after the mark was taken is at or after it: a query
    scoped to the mark reads a suffix of the bytes buffered since. *)
Theorem reset_run_behaviour (ok : list bool) (wait_after_ms : Z) (s : conn) :
  let '(m, ev) := reset_run ok wait_after_ms s in
  m = mark s /\
  (nth 0 ok true = false ->
   ev = [TSleep wait_after_ms]) /\
  (nth 0 ok true = true -> nth 1 ok true = false ->
   ev = [TSet DTR false; TSleep 20; TSleep wait_after_ms]) /\
  (nth 0 ok true = true -> nth 1 ok true = true -> nth 2 ok true = false ->
   ev = [TSet DTR false; TSleep 20; TSet RTS true; TSleep 100; TSleep wait_after_ms]) /\
  (nth 0 ok true = true -> nth 1 ok true = true -> nth 2 ok true = true ->
   ev = [TSet DTR false; TSleep 20; TSet RTS true; TSleep 100; TSet RTS false;
         TSleep wait_after_ms]) /\
  (forall (limit : Z) (reads : list bytes), exists j : nat,
     snapshot_bytes (snd (read_loop limit reads s)) (Some m) =
     skipn j (concat (map buffered_of reads))).
Proof.
  unfold reset_run, reset_run_body.
  split; [reflexivity|]. split; [|split; [|split; [|split]]];
    try (destruct ok as [|[] [|[] [|[] ok]]]; cbn [run_try app nth];
         intros; first [reflexivity | discriminate]).
  intros limit reads. apply snapshot_after_mark.
Qed.

(** C9 fails as stated: when the call releasing boot-select raises, the
    exception ends the [try] block, and no reset pulse is performed. *)
Lemma reset_run_no_pulse_after_failed_release :
  reset_run [false] 300 conn_init = (0, [TSleep 300]).
Proof. reflexivity. Qed.

(** ** ANSI stripping *)

Lemma match_osc_no_esc (c : Z) (l : text) : c <> 27 -> match_osc (c :: l) = None.
Proof.
  intros Hc. destruct l as [|c2 l]; [reflexivity|]. cbn [match_osc].
  apply Z.eqb_neq in Hc. rewrite Hc. reflexivity.
Qed.

Lemma match_csi_no_esc (c : Z) (l : text) : c <> 27 -> match_csi (c :: l) = None.
Proof.
  intros Hc. destruct l as [|c2 l]; [reflexivity|]. cbn [match_csi].
  apply Z.eqb_neq in Hc. rewrite Hc. reflexivity.
Qed.

Lemma sub_fuel_no_esc (m : text -> option text) :
  (forall c l, c <> 27 -> m (c :: l) = None) ->
  forall (fuel : nat) (t : text), ~ In 27 t -> sub_fuel m fuel t = t.
Proof.
  intros Hm fuel. induction fuel as [|fuel IH]; intros t Ht; [reflexivity|].
  destruct t as [|c t]; [reflexivity|]. cbn [sub_fuel].
  rewrite Hm by (intros E; apply Ht; left; exact E).
  f_equal. apply IH. intros E. apply Ht. right. exact E.
Qed.

Lemma sanitize_no_esc (t : text) : ~ In 27 t -> sanitize t = t.
Proof.
  intros Ht. unfold sanitize, py_sub.
  rewrite (sub_fuel_no_esc match_osc match_osc_no_esc _ t Ht).
  apply (sub_fuel_no_esc match_csi match_csi_no_esc _ t Ht).
Qed.

(** C10 fails as stated: in [ESC ESC [ m [ m] the first pass deletes the
    inner [ESC [ m], which joins the leading [ESC] with the trailing [[ m]
    into a new CSI sequence; the second pass deletes that one too. The same
    input shows it for [_clean_ansi]. *)
Lemma sanitize_not_idempotent :
  sanitize [27; 27; 91; 109; 91; 109] = [27; 91; 109] /\
  sanitize (sanitize [27; 27; 91; 109; 91; 109]) = [] /\
  clean_ansi [27; 27; 91; 109; 91; 109] = [27; 91; 109] /\
  clean_ansi (clean_ansi [27; 27; 91; 109; 91; 109]) = [].
Proof. vm_compute. repeat split. Qed.

(** C10, amended: [_sanitize] leaves text without ESC unchanged, so a second
    pass changes nothing whenever the first left no ESC character. *)
Theorem sanitize_idempotent_without_esc (s : text) :
  ~ In 27 (sanitize s) -> sanitize (sanitize s) = sanitize s.
Proof. apply sanitize_no_esc. Qed.

Lemma sanitize_idempotent_without_esc_witness :
  ~ In 27 (sanitize [65; 27; 91; 51; 49; 109; 66]) /\
  sanitize (sanitize [65; 27; 91; 51; 49; 109; 66]) = sanitize [65; 27; 91; 51; 49; 109; 66].
Proof.
  assert (H : ~ In 27 (sanitize [65; 27; 91; 51; 49; 109; 66])).
  { vm_compute. intros [E|[E|E]]; discriminate E || exact E. }
  split; [exact H|]. apply sanitize_idempotent_without_esc. exact H.
Defined.

(** * Further properties of the console code *)

(** ** Reader loop of [SerialConnection] *)

(** X1. With a non-negative limit the logical end of the stream
    ([_buf_base_index + len(_buf)]) advances by exactly the bytes the reads
    contribute, and the base index never decreases. *)
Theorem read_loop_mark_advance (limit : Z) (reads : list bytes) (s : conn) :
  0 <= limit ->
  mark (snd (read_loop limit reads s)) =
    mark s + Z.of_nat (length (concat (map buffered_of reads))) /\
  buf_base_index s <= buf_base_index (snd (read_loop limit reads s)).
Proof.
  intros Hl. destruct (read_loop_suffix limit reads s Hl) as (e & H1 & H2 & H3).
  unfold mark. rewrite H1, H2, length_skipn. rewrite length_app in *. lia.
Qed.

Lemma read_loop_mark_advance_witness :
  mark (snd (read_loop 2 [[x41; x42; x43]; []; [x44]] conn_init)) =
    mark conn_init + Z.of_nat (length (concat (map buffered_of [[x41; x42; x43]; []; [x44]]))) /\
  buf_base_index conn_init <= buf_base_index (snd (read_loop 2 [[x41; x42; x43]; []; [x44]] conn_init)).
Proof. apply (read_loop_mark_advance 2). lia. Defined.

Lemma read_loop_step_writes (limit : Z) (d : bytes) (s : conn) :
  fst (read_loop_step limit d s) = if contains Byte.eqb cpr_query d then [cpr_reply] else [].
Proof.
  unfold read_loop_step, answer_cpr. destruct d as [|b d]; [reflexivity|].
  cbn [is_empty]. destruct (contains Byte.eqb cpr_query (b :: d)); reflexivity.
Qed.

(** X2. Everything the reader loop writes to the transport is the cursor
    position reply, once per read that contains the query. *)
Theorem read_loop_writes (limit : Z) (reads : list bytes) (s : conn) :
  fst (read_loop limit reads s) =
    repeat cpr_reply (length (filter (contains Byte.eqb cpr_query) reads)).
Proof.
  revert s. induction reads as [|d reads IH]; intros s; [reflexivity|].
  cbn [read_loop]. pose proof (read_loop_step_writes limit d s) as W.
  destruct (read_loop_step limit d s) as [w1 s1]. cbn [fst] in W.
  pose proof (IH s1) as W2. destruct (read_loop limit reads s1) as [w2 s2].
  cbn [fst] in W2 |- *. subst. cbn [filter].
  destruct (contains Byte.eqb cpr_query d); reflexivity.
Qed.

(** X3. [get_text(start_pos=p)] / [_snapshot_from(p)] is empty for a
    position at or past the logical end of the stream. *)
Theorem snapshot_from_past_end (s : conn) (p : Z) :
  mark s <= p -> snapshot_from s (Some p) = [].
Proof.
  unfold mark, snapshot_from, snapshot_bytes. intros H.
  rewrite skipn_all2; [reflexivity|]. lia.
Qed.

Lemma snapshot_from_past_end_witness :
  mark (Conn [x41; x42] 5) <= 9 /\ snapshot_from (Conn [x41; x42] 5) (Some 9) = [].
Proof.
  split; [vm_compute; discriminate|]. apply snapshot_from_past_end. vm_compute. discriminate.
Defined.

(** X4. A position at or before the base index (one whose bytes were
    evicted) reads the whole buffer, as [start_pos=None] does. *)
Theorem snapshot_from_before_base (s : conn) (p : Z) :
  p <= buf_base_index s -> snapshot_from s (Some p) = snapshot_from s None.
Proof.
  unfold snapshot_from, snapshot_bytes. intros H.
  replace (Z.max 0 (p - buf_base_index s)) with 0 by lia. reflexivity.
Qed.

Lemma snapshot_from_before_base_witness :
  2 <= buf_base_index (Conn [x41; x42] 5) /\
  snapshot_from (Conn [x41; x42] 5) (Some 2) = snapshot_from (Conn [x41; x42] 5) None.
Proof.
  split; [vm_compute; discriminate|]. apply snapshot_from_before_base. vm_compute. discriminate.
Defined.

(** ** ANSI stripping only deletes characters *)

Lemma subseq_nil_l {A} (l : list A) : subseq [] l.
Proof. induction l; constructor; assumption. Qed.

Lemma subseq_refl {A} (l : list A) : subseq l l.
Proof. induction l; constructor; assumption. Qed.

Lemma subseq_trans {A} (a b c : list A) : subseq a b -> subseq b c -> subseq a c.
Proof.
  intros H1 H2. revert a H1. induction H2 as [|x b c H2 IH|x b c H2 IH]; intros a H1.
  - exact H1.
  - inversion H1; subst.
    + apply subseq_keep. apply IH. assumption.
    + apply subseq_drop. apply IH. assumption.
  - apply subseq_drop. apply IH. exact H1.
Qed.

Lemma subseq_skipn {A} (k : nat) (l : list A) : subseq (skipn k l) l.
Proof.
  revert k. induction l as [|x l IH]; intros [|k].
  - constructor.
  - constructor.
  - apply subseq_refl.
  - apply subseq_drop. apply IH.
Qed.

Lemma subseq_length {A} (a b : list A) : subseq a b -> (length a <= length b)%nat.
Proof. induction 1; cbn; lia. Qed.

Lemma skipn_next {A} (k : nat) (l r : list A) (x : A) :
  skipn k l = x :: r -> skipn (S k) l = r.
Proof.
  revert l. induction k as [|k IH]; intros [|y l]; cbn; try discriminate.
  - intros [= _ ->]. reflexivity.
  - apply IH.
Qed.

Lemma osc_body_suffix (l r : text) : osc_body l = Some r -> exists k, r = skipn k l.
Proof.
  induction l as [|c l IH]; cbn [osc_body]; [discriminate|].
  destruct (c =? 7); [intros [= <-]; exists 1%nat; reflexivity|].
  destruct (c =? 10); [discriminate|].
  destruct (c =? 27).
  - destruct l as [|d l']; [discriminate|].
    destruct (d =? 92).
    + intros [= <-]. exists 2%nat. reflexivity.
    + intros H. destruct (IH H) as [k ->]. exists (S k). reflexivity.
  - intros H. destruct (IH H) as [k ->]. exists (S k). reflexivity.
Qed.

Lemma skip_while_suffix (p : Z -> bool) (l : text) : exists k, skip_while p l = skipn k l.
Proof.
  induction l as [|c l [k IH]]; cbn [skip_while].
  - exists 0%nat. reflexivity.
  - destruct (p c).
    + exists (S k). exact IH.
    + exists 0%nat. reflexivity.
Qed.

Lemma match_osc_suffix : suffix_matcher match_osc.
Proof.
  intros s r. unfold match_osc.
  destruct s as [|c1 [|c2 rest]]; try discriminate.
  destruct ((c1 =? 27) && (c2 =? 93)); [|discriminate].
  intros H. destruct (osc_body_suffix rest r H) as [k ->]. exists (S (S k)). reflexivity.
Qed.

Lemma match_csi_suffix : suffix_matcher match_csi.
Proof.
  intros s r. unfold match_csi.
  destruct s as [|c1 [|c2 rest]]; try discriminate.
  destruct ((c1 =? 27) && (c2 =? 91)); [|discriminate].
  destruct (skip_while_suffix (in_range 48 63) rest) as [k1 E1].
  destruct (skip_while_suffix (in_range 32 47) (skip_while (in_range 48 63) rest)) as [k2 E2].
  rewrite E2, E1, skipn_skipn.
  remember (k2 + k1)%nat as k eqn:Ek. clear Ek E1 E2.
  destruct (skipn k rest) as [|f rest'] eqn:E; [discriminate|].
  destruct (in_range 64 126 f); [|discriminate].
  intros [= <-]. exists (S (S (S k))). cbn [skipn]. symmetry. exact (skipn_next k rest rest' f E).
Qed.

Lemma sub_fuel_subseq (m : text -> option text) (fuel : nat) (s : text) :
  suffix_matcher m -> subseq (sub_fuel m fuel s) s.
Proof.
  intros Hm. revert s. induction fuel as [|fuel IH]; intros s; cbn [sub_fuel].
  - apply subseq_refl.
  - destruct s as [|c rest]; [constructor|].
    destruct (m (c :: rest)) as [after|] eqn:E.
    + destruct (Hm _ _ E) as [k ->]. eapply subseq_trans; [apply IH|apply subseq_skipn].
    + apply subseq_keep. apply IH.
Qed.

(** X5. [_sanitize] / [_sanitize_terminal_output] and [_clean_ansi] only
    delete characters: the result is the input with some characters removed,
    so it is never longer. *)
Theorem sanitize_deletes_only (s : text) :
  subseq (sanitize s) s /\ (length (sanitize s) <= length s)%nat /\
  subseq (clean_ansi s) s /\ (length (clean_ansi s) <= length s)%nat.
Proof.
  assert (H1 : subseq (sanitize s) s).
  { unfold sanitize, py_sub. eapply subseq_trans.
    - apply sub_fuel_subseq, match_csi_suffix.
    - apply sub_fuel_subseq, match_osc_suffix. }
  assert (H2 : subseq (clean_ansi s) s).
  { unfold clean_ansi, py_sub. apply sub_fuel_subseq, match_csi_suffix. }
  repeat split; try assumption; apply subseq_length; assumption.
Qed.

(** ** UTF-8: what [send_command] encodes, the snapshots decode back *)

(** One unfolding step of [decode_z]. *)
Lemma decode_z_cons (b : Z) (rest : list Z) :
  decode_z (b :: rest) =
    if b <? 128 then b :: decode_z rest
    else if in_range 194 223 b then
      match rest with
      | c :: rest1 =>
          if in_range 128 191 c then ((b - 192) * 64 + (c - 128)) :: decode_z rest1
          else FFFD :: decode_z rest
      | [] => [FFFD]
      end
    else if in_range 224 239 b then
      let lo := if b =? 224 then 160 else 128 in
      let hi := if b =? 237 then 159 else 191 in
      match rest with
      | c :: rest1 =>
          if in_range lo hi c then
            match rest1 with
            | d :: rest2 =>
                if in_range 128 191 d
                then ((b - 224) * 4096 + (c - 128) * 64 + (d - 128)) :: decode_z rest2
                else FFFD :: decode_z rest1
            | [] => [FFFD]
            end
          else FFFD :: decode_z rest
      | [] => [FFFD]
      end
    else if in_range 240 244 b then
      let lo := if b =? 240 then 144 else 128 in
      let hi := if b =? 244 then 143 else 191 in
      match rest with
      | c :: rest1 =>
          if in_range lo hi c then
            match rest1 with
            | d :: rest2 =>
                if in_range 128 191 d then
                  match rest2 with
                  | e :: rest3 =>
                      if in_range 128 191 e
                      then ((b - 240) * 262144 + (c - 128) * 4096 + (d - 128) * 64
                            + (e - 128)) :: decode_z rest3
                      else FFFD :: decode_z rest2
                  | [] => [FFFD]
                  end
                else FFFD :: decode_z rest1
            | [] => [FFFD]
            end
          else FFFD :: decode_z rest
      | [] => [FFFD]
      end
    else FFFD :: decode_z rest.
Proof. reflexivity. Qed.

Lemma byte_val_of (z : Z) : 0 <= z <= 255 -> byte_val (byte_of z) = z.
Proof.
  intros Hz. unfold byte_val, byte_of.
  destruct (Byte.of_N (Z.to_N z)) as [b|] eqn:E.
  - apply Byte.to_of_N in E. rewrite E. apply Z2N.id. lia.
  - apply Byte.of_N_None_iff in E. lia.
Qed.

Ltac decide_z_tests :=
  repeat (unfold in_range;
          match goal with
          | |- context [?a =? ?b] => destruct (Z.eqb_spec a b)
          | |- context [?a <? ?b] => destruct (Z.ltb_spec a b)
          | |- context [?a <=? ?b] => destruct (Z.leb_spec a b)
          end; cbn [andb]; try (exfalso; lia)).

Lemma div64 (x : Z) : x = 64 * (x / 64) + x mod 64 /\ 0 <= x mod 64 < 64.
Proof. split; [apply Z.div_mod; lia | apply Z.mod_pos_bound; lia]. Qed.

Lemma div4096 (x : Z) : x / 4096 = x / 64 / 64.
Proof. rewrite Z.div_div by lia. reflexivity. Qed.

Lemma div262144 (x : Z) : x / 262144 = x / 64 / 64 / 64.
Proof. rewrite !Z.div_div by lia. reflexivity. Qed.

(** The arithmetic of the UTF-8 byte split: [c] in base 64. *)
Ltac utf8_arith c :=
  rewrite ?div4096, ?div262144;
  pose proof (div64 c); pose proof (div64 (c / 64)); pose proof (div64 (c / 64 / 64));
  set (q1 := c / 64) in *; set (q2 := q1 / 64) in *; set (q3 := q2 / 64) in *;
  set (r1 := c mod 64) in *; set (r2 := q1 mod 64) in *; set (r3 := q2 mod 64) in *;
  clearbody q1 q2 q3 r1 r2 r3; lia.

Ltac some_inj :=
  let E := fresh in
  intros E;
  match type of E with
  | Some ?x = Some ?b => assert (x = b) by congruence; subst b; clear E
  end.

Lemma encode_char_scalar (c : Z) : scalar_value c -> exists b, encode_char c = Some b.
Proof.
  intros [H1 H2]. unfold encode_char.
  destruct (c <? 128); [eexists; reflexivity|].
  destruct (c <? 2048); [eexists; reflexivity|].
  destruct (c <? 65536); [|eexists; reflexivity].
  unfold in_range. destruct (Z.leb_spec 55296 c), (Z.leb_spec c 57343); cbn [andb];
    try (eexists; reflexivity). lia.
Qed.

Lemma decode_encode_char (c : Z) (b rest : bytes) :
  scalar_value c -> encode_char c = Some b -> decode (b ++ rest) = c :: decode rest.
Proof.
  intros [H1 H2]. assert (Hs : c < 55296 \/ 57343 < c) by lia. clear H2.
  unfold encode_char, decode.
  destruct (Z.ltb_spec c 128).
  { some_inj. cbn [map app]. rewrite byte_val_of by lia. rewrite decode_z_cons; cbn [andb].
    destruct (Z.ltb_spec c 128); [reflexivity|lia]. }
  destruct (Z.ltb_spec c 2048).
  { some_inj. cbn [map app].
    assert (F : 194 <= 192 + c / 64 <= 223 /\ 128 <= 128 + c mod 64 <= 191 /\
                (192 + c / 64 - 192) * 64 + (128 + c mod 64 - 128) = c)
      by utf8_arith c.
    set (b1 := 192 + c / 64) in *. set (b2 := 128 + c mod 64) in *. clearbody b1 b2.
    clear - F. rewrite !byte_val_of by lia. rewrite decode_z_cons; cbn [andb].
    decide_z_tests. f_equal. lia. }
  destruct (Z.ltb_spec c 65536).
  { unfold in_range at 1. destruct (Z.leb_spec 55296 c), (Z.leb_spec c 57343); cbn [andb];
      try (exfalso; lia).
    all: some_inj; cbn [map app].
    all: assert (F : 224 <= 224 + c / 4096 <= 239 /\ 128 <= 128 + (c / 64) mod 64 <= 191 /\
                     128 <= 128 + c mod 64 <= 191 /\
                     (224 + c / 4096 = 224 -> 160 <= 128 + (c / 64) mod 64) /\
                     (224 + c / 4096 = 237 -> 128 + (c / 64) mod 64 <= 159) /\
                     (224 + c / 4096 - 224) * 4096 + (128 + (c / 64) mod 64 - 128) * 64
                     + (128 + c mod 64 - 128) = c)
      by utf8_arith c.
    all: set (b1 := 224 + c / 4096) in *; set (b2 := 128 + (c / 64) mod 64) in *;
      set (b3 := 128 + c mod 64) in *; clearbody b1 b2 b3; clear - F.
    all: rewrite !byte_val_of by lia; rewrite decode_z_cons; cbn [andb].
    all: decide_z_tests; f_equal; lia. }
  some_inj. cbn [map app].
  assert (F : 240 <= 240 + c / 262144 <= 244 /\ 128 <= 128 + (c / 4096) mod 64 <= 191 /\
              128 <= 128 + (c / 64) mod 64 <= 191 /\ 128 <= 128 + c mod 64 <= 191 /\
              (240 + c / 262144 = 240 -> 144 <= 128 + (c / 4096) mod 64) /\
              (240 + c / 262144 = 244 -> 128 + (c / 4096) mod 64 <= 143) /\
              (240 + c / 262144 - 240) * 262144 + (128 + (c / 4096) mod 64 - 128) * 4096
              + (128 + (c / 64) mod 64 - 128) * 64 + (128 + c mod 64 - 128) = c)
    by utf8_arith c.
  set (b1 := 240 + c / 262144) in *; set (b2 := 128 + (c / 4096) mod 64) in *;
    set (b3 := 128 + (c / 64) mod 64) in *; set (b4 := 128 + c mod 64) in *;
    clearbody b1 b2 b3 b4; clear - F.
  rewrite !byte_val_of by lia. rewrite decode_z_cons; cbn [andb].
  decide_z_tests; f_equal; lia.
Qed.

(** X6. A text of Unicode scalar values always encodes ([send_command],
    [send_line_and_capture], [wait_for]), and decoding the encoded bytes
    ([_snapshot_from], [_sanitize_terminal_output], the room sensor reader)
    gives the text back. *)
Theorem encode_decode_roundtrip (t : text) :
  Forall scalar_value t -> exists b, encode t = Some b /\ decode b = t.
Proof.
  induction t as [|c t IH]; intros Ht.
  - exists []. split; reflexivity.
  - inversion Ht as [|c' t' Hc Hts]; subst.
    destruct (IH Hts) as (b' & E' & D').
    destruct (encode_char_scalar c Hc) as [b Eb].
    exists (b ++ b'). cbn [encode]. rewrite Eb, E'. split; [reflexivity|].
    rewrite (decode_encode_char c b b' Hc Eb), D'. reflexivity.
Qed.

Lemma encode_decode_roundtrip_witness :
  exists b, encode [104; 233; 8364; 128512] = Some b /\ decode b = [104; 233; 8364; 128512].
Proof.
  apply encode_decode_roundtrip.
  repeat constructor; unfold scalar_value; lia.
Defined.

(** ** [SerialConsole] of the room sensor *)

Lemma rs_reader_step_state (d : bytes) (st : console) :
  c_buffer (rs_reader_step d st) = c_buffer st ++ d /\
  get_clean_text (rs_reader_step d st) = get_clean_text st ++ clean_ansi (decode d).
Proof.
  unfold rs_reader_step, get_clean_text. destruct d as [|b d].
  - cbn [is_empty]. rewrite !app_nil_r. split; reflexivity.
  - cbn [is_empty c_buffer c_clean_chunks].
    destruct (clean_ansi (decode (b :: d))) as [|x t] eqn:E; cbn [is_empty].
    + rewrite app_nil_r. split; reflexivity.
    + rewrite concat_app. cbn [concat]. rewrite app_nil_r. split; reflexivity.
Qed.

(** X7. The room sensor reader keeps every byte it reads, with no limit and
    no query answered, and its clean text is the concatenation of the
    chunks, each decoded and stripped of CSI sequences on its own. *)
Theorem rs_reader_accumulates (reads : list bytes) (st : console) :
  c_buffer (rs_reader_loop reads st) = c_buffer st ++ concat reads /\
  get_mark (rs_reader_loop reads st) = get_mark st + Z.of_nat (length (concat reads)) /\
  get_clean_text (rs_reader_loop reads st) =
    get_clean_text st ++ concat (map (fun d => clean_ansi (decode d)) reads).
Proof.
  revert st. induction reads as [|d reads IH]; intros st.
  - cbn [rs_reader_loop concat map length]. rewrite !app_nil_r.
    split; [reflexivity|split; [lia|reflexivity]].
  - cbn [rs_reader_loop concat map].
    destruct (IH (rs_reader_step d st)) as (B & M & T).
    destruct (rs_reader_step_state d st) as [B1 T1].
    unfold get_mark in *. rewrite M, B, B1, T, T1.
    split; [apply eq_sym, app_assoc|split; [rewrite !length_app; lia|apply eq_sym, app_assoc]].
Qed.

Lemma find_index_contains {A} (eqb : A -> A -> bool) (sub l : list A) :
  find_index eqb sub l = None <-> contains eqb sub l = false.
Proof.
  induction l as [|x l IH]; cbn [find_index contains].
  - destruct (is_prefix eqb sub []); cbn; split; congruence.
  - destruct (is_prefix eqb sub (x :: l)); cbn [orb].
    + split; discriminate.
    + rewrite <- IH. destruct (find_index eqb sub l); cbn; split; congruence.
Qed.

Lemma py_find_after_prefix {A} (eqb : A -> A -> bool) (a b sub : list A) :
  py_find eqb (a ++ b) sub (Z.of_nat (length a)) <> -1 <-> contains eqb sub b = true.
Proof.
  unfold py_find. rewrite length_app.
  destruct (Z.ltb_spec (Z.of_nat (length a)) 0); [lia|].
  destruct (Z.ltb_spec (Z.of_nat (length a + length b)) (Z.of_nat (length a))); [lia|].
  rewrite Nat2Z.id, skipn_app, skipn_all, Nat.sub_diag. cbn [skipn app].
  pose proof (find_index_contains eqb sub b) as F.
  destruct (find_index eqb sub b) as [i|].
  - split; [intros _|intros _; lia].
    destruct (contains eqb sub b); [reflexivity|]. destruct F as [_ F]. discriminate (F eq_refl).
  - destruct F as [F _]. rewrite (F eq_refl). split; [intros Hn; exfalso; apply Hn; reflexivity|discriminate].
Qed.

(** X8. The marks of the room sensor console: after a mark taken with
    [get_mark] (resp. [get_clean_mark]), the test of [wait_for_after]
    (resp. [wait_for_clean_after]) succeeds exactly when the target occurs in
    what the reader appended since the mark. *)
Theorem rs_find_after_mark (reads : list bytes) (st : console) (target : bytes) (t : text) :
  let st' := rs_reader_loop reads st in
  (py_find Byte.eqb (c_buffer st') target (get_mark st) <> -1 <->
   contains Byte.eqb target (concat reads) = true) /\
  (py_find Z.eqb (get_clean_text st') t (get_clean_mark st) <> -1 <->
   contains Z.eqb t (concat (map (fun d => clean_ansi (decode d)) reads)) = true).
Proof.
  cbn zeta. destruct (rs_reader_accumulates reads st) as (B & _ & T).
  rewrite B, T. unfold get_mark, get_clean_mark.
  split; apply py_find_after_prefix.
Qed.

(** The loop runs through polls before the deadline that do not find the
    target, sleeping 20 ms after each. *)
Lemma rs_wait_loop_skip (found : console -> bool) (deadline : Z) (pre rest : list rs_obs) :
  Forall (fun o' => rs_now o' < deadline /\ found (rs_state o') = false) pre ->
  rs_wait_loop found deadline (pre ++ rest) =
    let '(ev, r) := rs_wait_loop found deadline rest in
    (repeat (TSleep 20) (length pre) ++ ev, r).
Proof.
  intros H. induction H as [|o pre [Ht Hc] _ IH]; cbn [app length repeat].
  - destruct (rs_wait_loop found deadline rest); reflexivity.
  - cbn [rs_wait_loop]. apply Z.ltb_lt in Ht. rewrite Ht, Hc, IH.
    destruct (rs_wait_loop found deadline rest); reflexivity.
Qed.

(** X9. The polling loop shared by [wait_for], [wait_for_after] and
    [wait_for_clean_after]: it returns [True] at the first poll before the
    deadline that finds the target and [False] at the first clock reading at
    or past the deadline, having slept 20 ms after each earlier poll; while
    neither happens it keeps polling. *)
Theorem rs_wait_loop_spec (found : console -> bool) (deadline : Z)
    (pre : list rs_obs) (o : rs_obs) (post : list rs_obs) :
  Forall (fun o' => rs_now o' < deadline /\ found (rs_state o') = false) pre ->
  rs_wait_loop found deadline pre = (repeat (TSleep 20) (length pre), RsPending) /\
  (rs_now o < deadline -> found (rs_state o) = true ->
   rs_wait_loop found deadline (pre ++ o :: post) =
     (repeat (TSleep 20) (length pre), RsReturned true)) /\
  (deadline <= rs_now o ->
   rs_wait_loop found deadline (pre ++ o :: post) =
     (repeat (TSleep 20) (length pre), RsReturned false)).
Proof.
  intros H. split; [|split].
  - rewrite <- (app_nil_r pre) at 1. rewrite (rs_wait_loop_skip _ _ pre [] H).
    cbn [rs_wait_loop]. rewrite app_nil_r. reflexivity.
  - intros Ht Hc. rewrite (rs_wait_loop_skip _ _ pre (o :: post) H). cbn [rs_wait_loop].
    apply Z.ltb_lt in Ht. rewrite Ht, Hc, app_nil_r. reflexivity.
  - intros Ht. rewrite (rs_wait_loop_skip _ _ pre (o :: post) H). cbn [rs_wait_loop].
    apply Z.ltb_ge in Ht. rewrite Ht, app_nil_r. reflexivity.
Qed.

(** [wait_for("ok", timeout_s=1)] started at 0 on a console that prints
    [ok] between the polls at 20 ms and 40 ms: one sleep, then [True]. *)
Lemma rs_wait_loop_spec_witness :
  rs_wait_loop (fun st => contains Byte.eqb [x6f; x6b] (c_buffer st)) 1000
    [RsObs 20 (Console [] []); RsObs 40 (Console [x6f; x6b] [])] =
  ([TSleep 20], RsReturned true).
Proof.
  destruct (rs_wait_loop_spec (fun st => contains Byte.eqb [x6f; x6b] (c_buffer st)) 1000
              [RsObs 20 (Console [] [])] (RsObs 40 (Console [x6f; x6b] [])) []
              ltac:(repeat constructor)) as (_ & H & _).
  apply H; [cbn; lia | vm_compute; reflexivity].
Defined.

(** X10. With a timeout of zero (or less) and a clock that does not run
    backwards, the three waits of the console return [False] without
    polling or sleeping, even when the target is already in the buffer. *)
Theorem rs_wait_zero_timeout (t : text) (start timeout_ms t0 : Z) (o : rs_obs)
    (obs : list rs_obs) :
  timeout_ms <= 0 -> t0 <= rs_now o ->
  wait_for_clean_after t start timeout_ms t0 (o :: obs) = ([], RsReturned false) /\
  (encode t <> None ->
   wait_for_after t start timeout_ms t0 (o :: obs) = ([], RsReturned false) /\
   wait_for t timeout_ms t0 (o :: obs) = ([], RsReturned false)).
Proof.
  intros Ht Hn. unfold wait_for_clean_after, wait_for_after, wait_for.
  cbn [rs_wait_loop]. destruct (Z.ltb_spec (rs_now o) (t0 + timeout_ms)); [lia|].
  split; [reflexivity|]. intros He.
  destruct (encode t) as [b|]; [|congruence]. cbn [rs_wait_loop].
  destruct (Z.ltb_spec (rs_now o) (t0 + timeout_ms)); [lia|]. split; reflexivity.
Qed.

Lemma rs_wait_zero_timeout_witness :
  let st := rs_reader_loop [[x65; x73; x70; x33; x33; x3e]] console_init in
  wait_for_clean_after [101; 115; 112; 51; 51; 62] 0 0 1000 [RsObs 1000 st] =
    ([], RsReturned false) /\
  (encode [101; 115; 112; 51; 51; 62] <> None ->
   wait_for_after [101; 115; 112; 51; 51; 62] 0 0 1000 [RsObs 1000 st] = ([], RsReturned false) /\
   wait_for [101; 115; 112; 51; 51; 62] 0 1000 [RsObs 1000 st] = ([], RsReturned false)).
Proof. cbn zeta. apply rs_wait_zero_timeout; cbn; lia. Defined.

(** X11. [dump_recent(max_bytes)] decodes the last [max_bytes] bytes of the
    buffer (all of it when it is shorter), except that [max_bytes = 0]
    slices [buf[0:]] and returns the whole buffer. *)
Theorem dump_recent_tail (max_bytes : Z) (st : console) :
  (0 < max_bytes ->
   dump_recent max_bytes st =
     decode (skipn (length (c_buffer st) - Z.to_nat max_bytes) (c_buffer st))) /\
  dump_recent 0 st = decode (c_buffer st).
Proof.
  unfold dump_recent, py_slice_from. split.
  - intros H. destruct (Z.ltb_spec (- max_bytes) 0); [|lia].
    f_equal. f_equal. lia.
  - reflexivity.
Qed.

(** ** Configuration commands of program.py *)

Lemma replace_char_app (old : Z) (new a b : text) :
  replace_char old new (a ++ b) = replace_char old new a ++ replace_char old new b.
Proof. unfold replace_char. rewrite map_app, concat_app. reflexivity. Qed.

Lemma escape_str_value_chars (s : text) : escape_str_value s = concat (map escape_char s).
Proof.
  unfold escape_str_value. induction s as [|c s IH]; [reflexivity|].
  change (c :: s) with ([c] ++ s).
  rewrite !replace_char_app, IH, map_app, concat_app. f_equal.
  unfold replace_char, escape_char. cbn [map concat]. rewrite !app_nil_r.
  destruct (Z.eqb_spec c 92) as [->|H92]; [reflexivity|].
  cbn [map concat]. rewrite !app_nil_r. destruct (Z.eqb_spec c 34) as [->|H34]; reflexivity.
Qed.

(** X12. [_escape_str_value] loses nothing: two different strings never
    escape to the same text, so the quoted [str] value of an [nvs_set]
    command determines the configured string. *)
Theorem escape_str_value_injective (a b : text) :
  escape_str_value a = escape_str_value b -> a = b.
Proof.
  rewrite !escape_str_value_chars. revert b.
  induction a as [|x a IH]; intros [|y b]; cbn [map concat]; intros H.
  - reflexivity.
  - unfold escape_char in H.
    destruct (y =? 92); [discriminate|]. destruct (y =? 34); discriminate.
  - unfold escape_char in H.
    destruct (x =? 92); [discriminate|]. destruct (x =? 34); discriminate.
  - unfold escape_char in H.
    destruct (Z.eqb_spec x 92), (Z.eqb_spec y 92); try subst;
      try destruct (Z.eqb_spec x 34); try destruct (Z.eqb_spec y 34); try subst;
      cbn [app] in H; injection H; intros; try lia;
      f_equal; try lia; apply IH; assumption.
Qed.

Lemma escape_str_value_injective_witness :
  escape_str_value [97; 92; 34; 98] = escape_str_value [97; 92; 34; 98] /\
  [97; 92; 34; 98] = [97; 92; 34; 98].
Proof.
  split; [reflexivity|]. apply escape_str_value_injective. reflexivity.
Defined.

(** X13. [build_commands_from_dict] gives exactly the provisioning commands
    of [expected_commands]: [log_level * none]; then, for each namespace
    whose value is an object, in order, [nvs_namespace <ns>] followed by one
    [nvs_set <key> <type> -v <value>] per key, in order, with [u8] 1/0 for a
    boolean (tested before [int]), [i32] and the decimal text for an integer,
    and [str] with the escaped value in double quotes otherwise; namespaces
    whose value is not an object give no command; [restart] last. *)
Theorem build_commands_shape (data : config) :
  build_commands_from_dict data = expected_commands data.
Proof.
  unfold build_commands_from_dict, expected_commands. cbn [app]. f_equal. f_equal.
  induction data as [|[ns [kvs|v]] data IH]; cbn [map concat expected_namespace_lines];
    [reflexivity| |exact IH].
  unfold namespace_cmds at 1. cbn [snd fst app]. rewrite <- IH. f_equal. f_equal.
  apply map_ext. intros [k [[]|z|sv]]; reflexivity.
Qed.

(** ** Python dicts and [_merge_configs] *)

Lemma text_eqb_eq (a b : text) : text_eqb a b = true <-> a = b.
Proof.
  revert b. induction a as [|x a IH]; intros [|y b]; cbn; try (split; congruence).
  rewrite andb_true_iff, IH, Z.eqb_eq. split; [intros [-> ->]; reflexivity|intros [= -> ->]; auto].
Qed.

Lemma text_eqb_neq (a b : text) : text_eqb a b = false <-> a <> b.
Proof.
  rewrite <- text_eqb_eq. destruct (text_eqb a b); split; congruence.
Qed.

Lemma dict_get_set {V} (k k2 : text) (v : V) (d : list (text * V)) :
  dict_get k2 (dict_set k v d) = if text_eqb k2 k then Some v else dict_get k2 d.
Proof.
  induction d as [|[k' v'] d IH]; cbn [dict_set dict_get].
  - destruct (text_eqb k2 k); reflexivity.
  - destruct (text_eqb k k') eqn:E; cbn [dict_get].
    + apply text_eqb_eq in E. subst k'. destruct (text_eqb k2 k); reflexivity.
    + rewrite IH. destruct (text_eqb k2 k') eqn:E2; [|reflexivity].
      apply text_eqb_eq in E2. subst k'.
      destruct (text_eqb k2 k) eqn:E3; [|reflexivity].
      apply text_eqb_eq in E3. subst k. apply text_eqb_neq in E. congruence.
Qed.

Lemma dict_get_notin {V} (k : text) (d : list (text * V)) :
  ~ In k (map fst d) -> dict_get k d = None.
Proof.
  induction d as [|[k' v'] d IH]; cbn; [reflexivity|]. intros H.
  destruct (text_eqb k k') eqn:E.
  - apply text_eqb_eq in E. subst. exfalso. apply H. left. reflexivity.
  - apply IH. intros Hin. apply H. right. exact Hin.
Qed.

(** [d.update(kvs)] for a dict [kvs]: its keys win. *)
Lemma dict_update_get {V} (k : text) (d kvs : list (text * V)) :
  NoDup (map fst kvs) ->
  dict_get k (dict_update d kvs) =
    match dict_get k kvs with Some v => Some v | None => dict_get k d end.
Proof.
  unfold dict_update. revert d.
  induction kvs as [|[k1 v1] kvs IH]; intros d Hnd; [reflexivity|].
  cbn [fold_left fst snd map] in *. inversion Hnd as [|k1' ks Hnin Hnd']; subst.
  rewrite (IH _ Hnd'), dict_get_set. cbn [dict_get].
  destruct (text_eqb k k1) eqn:E; [|reflexivity].
  apply text_eqb_eq in E. subst k1. rewrite dict_get_notin by exact Hnin. reflexivity.
Qed.

(** X14. [_merge_configs] looks up like a namespace-by-namespace merge: a
    namespace only in [base] keeps its value, one whose values are objects on
    both sides gets [base]'s object updated with [overlay]'s, and otherwise
    [overlay]'s value replaces [base]'s. *)
Theorem merge_configs_get (base overlay : config) (ns : text) :
  NoDup (map fst overlay) ->
  dict_get ns (merge_configs base overlay) = merged_value (dict_get ns overlay) (dict_get ns base).
Proof.
  unfold merge_configs. revert base.
  induction overlay as [|[ns1 kv1] overlay IH]; intros base Hnd; [reflexivity|].
  cbn [fold_left fst snd map] in *. inversion Hnd as [|ns1' ks Hnin Hnd']; subst.
  rewrite (IH _ Hnd'). cbn [dict_get].
  destruct (text_eqb ns ns1) eqn:E.
  - apply text_eqb_eq in E. subst ns1. rewrite (dict_get_notin ns overlay Hnin).
    cbn [merged_value].
    destruct kv1 as [o|v]; destruct (dict_get ns base) as [[b|bv]|] eqn:Eb;
      rewrite dict_get_set, (proj2 (text_eqb_eq ns ns) eq_refl); reflexivity.
  - destruct (dict_get ns overlay) as [ov|]; cbn [merged_value].
    + destruct kv1 as [o|v]; [destruct (dict_get ns1 base) as [[b|bv]|]|];
        rewrite dict_get_set, E; reflexivity.
    + destruct kv1 as [o|v]; [destruct (dict_get ns1 base) as [[b|bv]|]|];
        rewrite dict_get_set, E; reflexivity.
Qed.

Lemma merge_configs_get_witness :
  NoDup (map fst [(txt "wifi", NsDict [(txt "ssid", JOther (txt "home"))])]) /\
  dict_get (txt "wifi")
    (merge_configs [(txt "wifi", NsDict [(txt "pass", JOther (txt "x"))]); (txt "id", NsOther (JInt 7))]
                   [(txt "wifi", NsDict [(txt "ssid", JOther (txt "home"))])]) =
  merged_value (dict_get (txt "wifi") [(txt "wifi", NsDict [(txt "ssid", JOther (txt "home"))])])
               (dict_get (txt "wifi") [(txt "wifi", NsDict [(txt "pass", JOther (txt "x"))]);
                                       (txt "id", NsOther (JInt 7))]).
Proof.
  assert (H : NoDup (map fst [(txt "wifi", NsDict [(txt "ssid", JOther (txt "home"))])]))
    by (repeat constructor; cbn; tauto).
  split; [exact H|]. apply merge_configs_get. exact H.
Defined.

(** X15. When a namespace holds an object in both configs, each key of the
    merged object takes [overlay]'s value when [overlay] has the key and
    [base]'s otherwise. *)
Theorem merge_configs_inner_keys (base overlay : config) (ns k : text)
    (o b : list (text * jvalue)) :
  NoDup (map fst overlay) -> NoDup (map fst o) ->
  dict_get ns overlay = Some (NsDict o) -> dict_get ns base = Some (NsDict b) ->
  exists m, dict_get ns (merge_configs base overlay) = Some (NsDict m) /\
            dict_get k m = match dict_get k o with Some v => Some v | None => dict_get k b end.
Proof.
  intros Hnd Hndo Ho Hb. exists (dict_update b o). split.
  - rewrite (merge_configs_get base overlay ns Hnd), Ho, Hb. reflexivity.
  - apply dict_update_get. exact Hndo.
Qed.

Lemma merge_configs_inner_keys_witness :
  exists m,
    dict_get (txt "wifi")
      (merge_configs [(txt "wifi", NsDict [(txt "ssid", JOther (txt "old")); (txt "pass", JOther (txt "x"))])]
                     [(txt "wifi", NsDict [(txt "ssid", JOther (txt "home"))])]) = Some (NsDict m) /\
    dict_get (txt "pass") m =
      match dict_get (txt "pass") [(txt "ssid", JOther (txt "home"))] with
      | Some v => Some v
      | None => dict_get (txt "pass") [(txt "ssid", JOther (txt "old")); (txt "pass", JOther (txt "x"))]
      end.
Proof.
  apply merge_configs_inner_keys.
  - repeat constructor; cbn; tauto.
  - repeat constructor; cbn; tauto.
  - reflexivity.
  - reflexivity.
Defined.

(** ** Port selection *)

Lemma insert_desc_head (lower : text -> text) (p b : port) (rest : list port) :
  exists rest', insert_desc lower p (b :: rest) =
    (if port_score lower p <=? port_score lower b then b else p) :: rest'.
Proof.
  cbn [insert_desc]. destruct (port_score lower p <=? port_score lower b); eexists; reflexivity.
Qed.

Lemma insert_desc_nonempty (lower : text -> text) (p : port) (l : list port) :
  insert_desc lower p l <> [].
Proof.
  destruct l as [|b l]; cbn [insert_desc]; [discriminate|].
  destruct (port_score lower p <=? port_score lower b); discriminate.
Qed.

(** The head of the sorted list is the first port of maximal score. *)
Lemma sorted_desc_first_max (lower : text -> text) (ports : list port) :
  ports <> [] ->
  exists pre best post rest,
    ports = pre ++ best :: post /\ sorted_desc lower ports = best :: rest /\
    Forall (fun q => port_score lower q < port_score lower best) pre /\
    Forall (fun q => port_score lower q <= port_score lower best) post.
Proof.
  induction ports as [|p ports IH] using rev_ind; [congruence|]. intros _.
  unfold sorted_desc. rewrite fold_left_app. cbn [fold_left].
  fold (sorted_desc lower ports).
  destruct ports as [|p0 ports0] eqn:Ep.
  - exists [], p, [], []. repeat split; constructor.
  - rewrite <- Ep in *. destruct IH as (pre & best & post & rest & E & S & Fpre & Fpost);
      [subst; discriminate|].
    rewrite S. destruct (insert_desc_head lower p best rest) as [rest' ->].
    destruct (Z.leb_spec (port_score lower p) (port_score lower best)).
    + exists pre, best, (post ++ [p]), rest'. rewrite E, <- app_assoc. cbn [app].
      repeat split; try assumption. apply Forall_app. split; [assumption|].
      constructor; [assumption|constructor].
    + exists ports, p, [], rest'. repeat split; [|constructor].
      apply Forall_forall. intros q Hq. rewrite E in Hq. apply in_app_or in Hq.
      destruct Hq as [Hq|[<-|Hq]].
      * rewrite Forall_forall in Fpre. specialize (Fpre q Hq). lia.
      * lia.
      * rewrite Forall_forall in Fpost. specialize (Fpost q Hq). lia.
Qed.

Lemma pick_port_scan (lower : text -> text) (preferred : option text) (ports : list port) :
  no_preference preferred ->
  pick_port lower preferred ports =
    match sorted_desc lower ports with [] => NoPorts | best :: _ => Picked (device best) end.
Proof. intros [-> | ->]; reflexivity. Qed.

(** X16. Without a preferred port, [pick_port] returns the device of the
    first listed port with the highest score (ties keep the listing order,
    as [sorted] is stable), and with no port at all it fails. *)
Theorem pick_port_first_best (lower : text -> text) (preferred : option text)
    (ports : list port) :
  no_preference preferred ->
  (ports = [] -> pick_port lower preferred ports = NoPorts) /\
  (ports <> [] ->
   exists pre best post,
     ports = pre ++ best :: post /\ pick_port lower preferred ports = Picked (device best) /\
     Forall (fun q => port_score lower q < port_score lower best) pre /\
     Forall (fun q => port_score lower q <= port_score lower best) post).
Proof.
  intros Hp. rewrite (pick_port_scan lower preferred ports Hp). split.
  - intros ->. reflexivity.
  - intros Hne. destruct (sorted_desc_first_max lower ports Hne)
      as (pre & best & post & rest & E & S & F1 & F2).
    exists pre, best, post. rewrite S. repeat split; assumption.
Qed.

Lemma pick_port_first_best_witness :
  no_preference None /\
  ([] = @nil port -> pick_port ascii_lower None [] = NoPorts) /\
  ([Port (Some (txt "/dev/ttyS0")) None None None;
    Port (Some (txt "/dev/ttyUSB0")) (Some (txt "CP2102 USB")) (Some 4292) (Some 60000)] <> [] ->
   exists pre best post,
     [Port (Some (txt "/dev/ttyS0")) None None None;
      Port (Some (txt "/dev/ttyUSB0")) (Some (txt "CP2102 USB")) (Some 4292) (Some 60000)]
       = pre ++ best :: post /\
     pick_port ascii_lower None
       [Port (Some (txt "/dev/ttyS0")) None None None;
        Port (Some (txt "/dev/ttyUSB0")) (Some (txt "CP2102 USB")) (Some 4292) (Some 60000)]
       = Picked (device best) /\
     Forall (fun q => port_score ascii_lower q < port_score ascii_lower best) pre /\
     Forall (fun q => port_score ascii_lower q <= port_score ascii_lower best) post).
Proof.
  assert (H : no_preference None) by (left; reflexivity).
  split; [exact H|]. split.
  - exact (proj1 (pick_port_first_best ascii_lower None [] H)).
  - exact (proj2 (pick_port_first_best ascii_lower None _ H)).
Defined.

Lemma port_score_bluetooth (lower : text -> text) (p : port) :
  (is_bluetooth lower p = true -> port_score lower p <= -40) /\
  (is_bluetooth lower p = false -> 0 <= port_score lower p).
Proof.
  unfold port_score, is_bluetooth. cbv zeta.
  destruct (_ || _ || _ || _ || _), (contains Z.eqb (txt "usb") _),
    (contains Z.eqb (txt "bluetooth") (lower (or_empty (device p)))
     || contains Z.eqb (txt "bluetooth") (lower (or_empty (description p)))),
    (vid p), (pid p); split; intros; try discriminate; lia.
Qed.

(** X17. [pick_port] never picks a Bluetooth port (one whose device or
    description contains "bluetooth" after [lower]) when a port without
    that word is listed. *)
Theorem pick_port_avoids_bluetooth (lower : text -> text) (preferred : option text)
    (ports : list port) (q : port) :
  no_preference preferred -> In q ports -> is_bluetooth lower q = false ->
  exists b, In b ports /\ is_bluetooth lower b = false /\
            pick_port lower preferred ports = Picked (device b).
Proof.
  intros Hp Hq Hbq. rewrite (pick_port_scan lower preferred ports Hp).
  assert (Hne : ports <> []) by (intros ->; destruct Hq).
  destruct (sorted_desc_first_max lower ports Hne) as (pre & best & post & rest & E & S & F1 & F2).
  exists best. rewrite S. split; [rewrite E; apply in_or_app; right; left; reflexivity|].
  split; [|reflexivity].
  destruct (is_bluetooth lower best) eqn:Hb; [exfalso|reflexivity].
  apply (proj1 (port_score_bluetooth lower best)) in Hb.
  apply (proj2 (port_score_bluetooth lower q)) in Hbq.
  rewrite E in Hq. apply in_app_or in Hq. destruct Hq as [Hq|[<-|Hq]].
  - rewrite Forall_forall in F1. specialize (F1 q Hq). lia.
  - lia.
  - rewrite Forall_forall in F2. specialize (F2 q Hq). lia.
Qed.

Lemma pick_port_avoids_bluetooth_witness :
  exists b, In b [Port (Some (txt "/dev/cu.Bluetooth-Incoming-Port")) (Some (txt "n/a")) None None;
                  Port (Some (txt "/dev/cu.usbserial-0001")) (Some (txt "CP2102")) None None] /\
            is_bluetooth ascii_lower b = false /\
            pick_port ascii_lower None
              [Port (Some (txt "/dev/cu.Bluetooth-Incoming-Port")) (Some (txt "n/a")) None None;
               Port (Some (txt "/dev/cu.usbserial-0001")) (Some (txt "CP2102")) None None]
              = Picked (device b).
Proof.
  apply (pick_port_avoids_bluetooth ascii_lower None _
           (Port (Some (txt "/dev/cu.usbserial-0001")) (Some (txt "CP2102")) None None)).
  - left. reflexivity.
  - right. left. reflexivity.
  - vm_compute. reflexivity.
Defined.

(** ** The transcript of [send_line_and_capture] *)

Lemma capture_loop_captured (start last : Z) (acc : bytes) (obs : list read_obs) (t : text) :
  snd (capture_loop start last acc obs) = Captured t ->
  exists pre o post,
    obs = pre ++ o :: post /\ r_data o = [] /\
    t = sanitize (decode (acc ++ concat (map (fun o' => buffered_of (r_data o')) pre))) /\
    (idle_threshold_ms <= r_now o - last_data_after last pre \/ max_wait_ms <= r_now o - start).
Proof.
  revert last acc. induction obs as [|o obs IH]; intros last acc; cbn [capture_loop].
  - discriminate.
  - destruct (is_empty (r_data o)) eqn:He; cbn [negb].
    + assert (Ho : r_data o = []) by (destruct (r_data o); [reflexivity|discriminate]).
      destruct (Z.leb_spec idle_threshold_ms (r_now o - last)).
      { intros [= <-]. exists [], o, obs. cbn. rewrite app_nil_r. auto. }
      destruct (Z.leb_spec max_wait_ms (r_now o - start)).
      { intros [= <-]. exists [], o, obs. cbn. rewrite app_nil_r. auto. }
      destruct (capture_loop start last acc obs) as [ev res] eqn:Ec. cbn [snd]. intros Hr.
      specialize (IH last acc). rewrite Ec in IH. destruct (IH Hr) as (pre & o' & post & E & D & T & C).
      exists (o :: pre), o', post. cbn [map concat app]. rewrite Ho. unfold buffered_of at 1.
      cbn [is_empty app]. unfold last_data_after. cbn [fold_left]. rewrite He.
      repeat split; [rewrite E; reflexivity|assumption|assumption|exact C].
    + destruct (answer_cpr (r_data o)) as [w d] eqn:Ea.
      destruct (capture_loop start (r_now o) (acc ++ d) obs) as [ev res] eqn:Ec. cbn [snd]. intros Hr.
      specialize (IH (r_now o) (acc ++ d)). rewrite Ec in IH.
      destruct (IH Hr) as (pre & o' & post & E & D & T & C).
      exists (o :: pre), o', post. cbn [map concat]. unfold buffered_of at 1. rewrite He, Ea.
      cbn [snd]. unfold last_data_after in *. cbn [fold_left]. rewrite He.
      rewrite app_assoc. repeat split; [rewrite E; reflexivity|assumption|assumption|exact C].
Qed.

(** X18. When [send_line_and_capture] returns, it stopped at an empty read
    that came 0.4 s or more after the last data (or the start) or 6 s or
    more after the start, and it returns the sanitized decoding of all the
    bytes read before, with every cursor position query removed. *)
Theorem send_line_and_capture_transcript (line : text) (start : Z) (obs : list read_obs)
    (t : text) :
  snd (send_line_and_capture line start obs) = Captured t ->
  exists pre o post,
    obs = pre ++ o :: post /\ r_data o = [] /\
    t = sanitize (decode (concat (map (fun o' => buffered_of (r_data o')) pre))) /\
    (idle_threshold_ms <= r_now o - last_data_after start pre \/ max_wait_ms <= r_now o - start).
Proof.
  unfold send_line_and_capture.
  destruct (capture_loop start start [] obs) as [ev res] eqn:Ec. cbn [snd]. intros Hr.
  assert (H : snd (capture_loop start start [] obs) = Captured t) by (rewrite Ec; exact Hr).
  exact (capture_loop_captured start start [] obs t H).
Qed.

Lemma send_line_and_capture_transcript_witness :
  exists pre o post,
    [ReadObs [x68; x69] 1000; ReadObs [] 1500] = pre ++ o :: post /\ r_data o = [] /\
    sanitize (decode [x68; x69]) =
      sanitize (decode (concat (map (fun o' => buffered_of (r_data o')) pre))) /\
    (idle_threshold_ms <= r_now o - last_data_after 900 pre \/ max_wait_ms <= r_now o - 900).
Proof.
  apply (send_line_and_capture_transcript [104; 105] 900). vm_compute. reflexivity.
Defined.

(** ** Namespace order after [_merge_configs] *)

Lemma dict_set_keys {V} (k : text) (v : V) (d : list (text * V)) :
  map fst (dict_set k v d) =
    if existsb (text_eqb k) (map fst d) then map fst d else map fst d ++ [k].
Proof.
  induction d as [|[k' v'] d IH]; cbn [dict_set map fst existsb]; [reflexivity|].
  destruct (text_eqb k k'); cbn [map fst orb]; [reflexivity|].
  rewrite IH. destruct (existsb (text_eqb k) (map fst d)); reflexivity.
Qed.

Lemma existsb_text_snoc (k k1 : text) (l : list text) :
  k <> k1 -> existsb (text_eqb k) (l ++ [k1]) = existsb (text_eqb k) l.
Proof.
  intros H. rewrite existsb_app. cbn [existsb].
  rewrite (proj2 (text_eqb_neq k k1) H). cbn [orb]. apply orb_false_r.
Qed.

(** X19. [_merge_configs] keeps the namespaces of [base] in their order and
    appends the namespaces that only [overlay] has, in [overlay]'s order;
    [build_commands_from_dict] emits the namespaces in this order. *)
Theorem merge_configs_keys (base overlay : config) :
  NoDup (map fst overlay) ->
  map fst (merge_configs base overlay) =
    map fst base ++ filter (fun k => negb (existsb (text_eqb k) (map fst base))) (map fst overlay).
Proof.
  unfold merge_configs. revert base.
  induction overlay as [|[ns1 kv1] overlay IH]; intros base Hnd.
  - cbn. rewrite app_nil_r. reflexivity.
  - cbn [fold_left fst snd map] in *. inversion Hnd as [|ns1' ks Hnin Hnd']; subst.
    rewrite (IH _ Hnd').
    set (base' := match kv1, dict_get ns1 base with
                  | NsDict kv, Some (NsDict b) => dict_set ns1 (NsDict (dict_update b kv)) base
                  | _, _ => dict_set ns1 kv1 base
                  end).
    assert (Hk : map fst base' =
                 if existsb (text_eqb ns1) (map fst base) then map fst base
                 else map fst base ++ [ns1]).
    { subst base'. destruct kv1 as [o|v]; [destruct (dict_get ns1 base) as [[b|bv]|]|];
        apply dict_set_keys. }
    rewrite Hk. cbn [filter].
    assert (Hf : forall base_keys : list text,
              filter (fun k => negb (existsb (text_eqb k) (base_keys ++ [ns1]))) (map fst overlay) =
              filter (fun k => negb (existsb (text_eqb k) base_keys)) (map fst overlay)).
    { intros bk. apply filter_ext_in. intros k Hk'. rewrite existsb_text_snoc; [reflexivity|].
      intros ->. exact (Hnin Hk'). }
    destruct (existsb (text_eqb ns1) (map fst base)); cbn [negb].
    + reflexivity.
    + rewrite Hf, <- app_assoc. reflexivity.
Qed.

Lemma merge_configs_keys_witness :
  NoDup (map fst [(txt "mqtt", NsDict []); (txt "wifi", NsDict [])]) /\
  map fst (merge_configs [(txt "wifi", NsDict []); (txt "id", NsOther (JInt 1))]
                         [(txt "mqtt", NsDict []); (txt "wifi", NsDict [])]) =
    map fst [(txt "wifi", NsDict []); (txt "id", NsOther (JInt 1))] ++
    filter (fun k => negb (existsb (text_eqb k)
                                   (map fst [(txt "wifi", NsDict []); (txt "id", NsOther (JInt 1))])))
           (map fst [(txt "mqtt", NsDict []); (txt "wifi", NsDict [])]).
Proof.
  assert (H : NoDup (map fst [(txt "mqtt", NsDict []); (txt "wifi", NsDict [])]))
    by (repeat constructor; cbn; intuition discriminate).
  split; [exact H|]. apply merge_configs_keys. exact H.
Defined.
